(** * Rixz SRT captioner: the segmenter and the cue timeline renderer

    A shallow embedding of [app.py]: [split_text] (the segmenter),
    [to_timestamp] and [generate_srt] (the renderer), together with the
    parts of the Python runtime they call: [str] methods, two regular
    expressions, [int]/[float] arithmetic, [datetime.timedelta] and
    format specifications.

    Python values are modelled as follows.
    - [int] is [Z] (unbounded).
    - [str] is a list of Unicode code points, each an [N].
    - [float] is an IEEE 754 binary64 value, a [spec_float] of the
      standard library with [prec = 53] and [emax = 1024].
    - A call that may raise returns a [result]: [Ok v] or [Raise e]. *)

From Stdlib Require Import ZArith NArith List Bool Lia String Ascii.
From Stdlib Require Import SpecFloat DecimalPos.
Import ListNotations.

Local Open Scope Z_scope.

(** ** Exceptions *)

Inductive exn : Type :=
| OverflowError
| ValueError
| ZeroDivisionError.

Inductive result (A : Type) : Type :=
| Ok (a : A)
| Raise (e : exn).

Arguments Ok {A} a.
Arguments Raise {A} e.

Definition bind {A B : Type} (r : result A) (k : A -> result B) : result B :=
  match r with
  | Ok a => k a
  | Raise e => Raise e
  end.

Notation "x <- r ;; k" := (bind r (fun x => k))
  (at level 61, r at next level, right associativity).

(** ** Strings *)

Module PyStr.

Definition char : Type := N.
Definition str : Type := list char.

(** An ASCII literal as a Python string. *)
Definition py (s : string) : str := map N_of_ascii (list_ascii_of_string s).

Definition TAB : char := 0x09%N.
Definition LF : char := 0x0A%N.
Definition CR : char := 0x0D%N.
Definition SPACE : char := 0x20%N.

Definition str_eqb (a b : str) : bool :=
  if list_eq_dec N.eq_dec a b then true else false.

(** [Py_UNICODE_ISSPACE]: the characters [str.strip()] removes and the
    regular expression class [\s] matches on a [str] pattern. *)
Definition is_space (c : char) : bool :=
  ((0x09 <=? c) && (c <=? 0x0D) || (0x1C <=? c) && (c <=? 0x20)
   || (c =? 0x85) || (c =? 0xA0) || (c =? 0x1680)
   || (0x2000 <=? c) && (c <=? 0x200A)
   || (c =? 0x2028) || (c =? 0x2029) || (c =? 0x202F) || (c =? 0x205F)
   || (c =? 0x3000))%N.

(** [Py_UNICODE_ISLINEBREAK]: the line boundaries of [str.splitlines()]. *)
Definition is_linebreak (c : char) : bool :=
  ((0x0A <=? c) && (c <=? 0x0D) || (0x1C <=? c) && (c <=? 0x1E)
   || (c =? 0x85) || (c =? 0x2028) || (c =? 0x2029))%N.

(** The regular expression class [[ \t]]. *)
Definition is_blank (c : char) : bool := ((c =? SPACE) || (c =? TAB))%N.

(** The regular expression class [[.!?]]. *)
Definition is_sentence_end (c : char) : bool :=
  ((c =? 0x2E) || (c =? 0x21) || (c =? 0x3F))%N.

Fixpoint lstrip (s : str) : str :=
  match s with
  | [] => []
  | c :: r => if is_space c then lstrip r else s
  end.

Definition rstrip (s : str) : str := rev (lstrip (rev s)).

(** [s.strip()] *)
Definition strip (s : str) : str := rstrip (lstrip s).

(** [c in s] for a one-character pattern. *)
Definition contains (c : char) (s : str) : bool := existsb (N.eqb c) s.

(** [s.count(c)] for a one-character pattern. *)
Definition count (c : char) (s : str) : Z :=
  Z.of_nat (List.length (filter (N.eqb c) s)).

(** [sep.join(parts)] for a one-character separator. *)
Fixpoint join (sep : char) (parts : list str) : str :=
  match parts with
  | [] => []
  | [p] => p
  | p :: rest => p ++ sep :: join sep rest
  end.

(** [s.split(sep)] for a one-character separator; [cur] holds the
    current piece, last character first. *)
Fixpoint split_go (sep : char) (cur : str) (s : str) : list str :=
  match s with
  | [] => [rev cur]
  | c :: r => if (c =? sep)%N then rev cur :: split_go sep [] r
              else split_go sep (c :: cur) r
  end.

Definition split (sep : char) (s : str) : list str := split_go sep [] s.

(** [s.splitlines()]: scan to the next line boundary, emit the line
    without it, treat CR LF as one boundary; nothing is emitted for the
    empty remainder after the last boundary. *)
Fixpoint splitlines_go (cur : str) (s : str) : list str :=
  match s with
  | [] => match cur with [] => [] | _ => [rev cur] end
  | c :: r =>
      if is_linebreak c then
        rev cur ::
        match r with
        | c' :: r' => if ((c =? CR) && (c' =? LF))%N then splitlines_go [] r'
                      else splitlines_go [] r
        | [] => splitlines_go [] r
        end
      else splitlines_go (c :: cur) r
  end.

Definition splitlines (s : str) : list str := splitlines_go [] s.

(** [re.sub(r"[ \t]+", " ", s)]: every maximal run of spaces and tabs
    becomes one space. [in_run] tells that the previous character was
    part of a run already replaced. *)
Fixpoint sub_blank_runs (in_run : bool) (s : str) : str :=
  match s with
  | [] => []
  | c :: r =>
      if is_blank c then
        if in_run then sub_blank_runs true r else SPACE :: sub_blank_runs true r
      else c :: sub_blank_runs false r
  end.

(** [re.split(r"(?<=[.!?])\s+", s)]. The scanner is in a piece, knowing
    whether the previous character is one of [.!?], or inside a
    separator (a run of [\s] that started right after such a
    character). *)
Inductive scan : Type :=
| InPiece (after_end : bool)
| InSeparator.

Fixpoint split_sentences_go (st : scan) (cur : str) (s : str) : list str :=
  match s with
  | [] => [rev cur]
  | c :: r =>
      match st with
      | InPiece true =>
          if is_space c then rev cur :: split_sentences_go InSeparator [] r
          else split_sentences_go (InPiece (is_sentence_end c)) (c :: cur) r
      | InPiece false =>
          split_sentences_go (InPiece (is_sentence_end c)) (c :: cur) r
      | InSeparator =>
          if is_space c then split_sentences_go InSeparator cur r
          else split_sentences_go (InPiece (is_sentence_end c)) (c :: cur) r
      end
  end.

Definition split_sentences (s : str) : list str :=
  split_sentences_go (InPiece false) [] s.

(** Decimal digits. *)
Fixpoint str_of_uint (u : Decimal.uint) : str :=
  (match u with
   | Decimal.Nil => []
   | Decimal.D0 u => 0x30 :: str_of_uint u
   | Decimal.D1 u => 0x31 :: str_of_uint u
   | Decimal.D2 u => 0x32 :: str_of_uint u
   | Decimal.D3 u => 0x33 :: str_of_uint u
   | Decimal.D4 u => 0x34 :: str_of_uint u
   | Decimal.D5 u => 0x35 :: str_of_uint u
   | Decimal.D6 u => 0x36 :: str_of_uint u
   | Decimal.D7 u => 0x37 :: str_of_uint u
   | Decimal.D8 u => 0x38 :: str_of_uint u
   | Decimal.D9 u => 0x39 :: str_of_uint u
   end)%N.

Definition MINUS : char := 0x2D%N.
Definition ZERO : char := 0x30%N.

(** [str(i)] for an [int]. *)
Definition str_of_int (i : Z) : str :=
  match Z.to_int i with
  | Decimal.Pos u => str_of_uint u
  | Decimal.Neg u => MINUS :: str_of_uint u
  end.

Definition zfill (width : nat) (digits : str) : str :=
  repeat ZERO (width - List.length digits) ++ digits.

(** [format(i, "0w")], the replacement field [{i:0w}] of an f-string:
    decimal digits padded with zeros after the sign up to [width]
    characters, never truncated. *)
Definition format_zero (width : nat) (i : Z) : str :=
  match Z.to_int i with
  | Decimal.Pos u => zfill width (str_of_uint u)
  | Decimal.Neg u => MINUS :: zfill (width - 1) (str_of_uint u)
  end.

End PyStr.

Import PyStr.

(** ** [split_text] *)

(** The list comprehension [[p.strip() for p in parts if p.strip()]]. *)
Definition stripped_nonempty (parts : list str) : list str :=
  filter (fun p => negb (str_eqb p [])) (map strip parts).

Definition split_text (text mode : str) : list str :=
  let cleaned := sub_blank_runs false (strip text) in
  if str_eqb mode (py "newlines")
     || (str_eqb mode (py "auto") && contains LF cleaned && (2 <=? count LF cleaned))
  then stripped_nonempty (splitlines cleaned)
  else
    let parts := split_sentences cleaned in
    stripped_nonempty parts.


(** ** Floats *)

Module PyFloat.

Definition prec : Z := 53.
Definition emax : Z := 1024.

Definition float : Type := spec_float.

(** A well-formed binary64 value: the mantissa of a finite float has at
    most 53 bits and its exponent is the canonical one. *)
Definition is_binary64 (x : float) : bool := valid_binary prec emax x.

Definition is_finite (x : float) : bool :=
  match x with
  | S754_zero _ | S754_finite _ _ _ => true
  | S754_infinity _ | S754_nan => false
  end.

(** [x * y] and [x < y] on floats. *)
Definition float_mul (x y : float) : float := SFmul prec emax x y.
Definition float_ltb (x y : float) : bool := SFltb x y.

(** [float(i)] for an [int] within the float range: the nearest
    binary64 value (exact below 2^53). *)
Definition float_of_int (i : Z) : float := binary_normalize prec emax i 0 false.

(** An [int] as an unrounded float [m * 2^0], the operand form of
    [_ / _] on two [int]s. *)
Definition exact_of_int (i : Z) : float :=
  match i with
  | Z0 => S754_zero false
  | Zpos p => S754_finite false p 0
  | Zneg p => S754_finite true p 0
  end.

(** [a / b] on two [int]s: the quotient correctly rounded to the
    nearest binary64 value, ties to even. *)
Definition int_true_divide (a b : Z) : result float :=
  if b =? 0 then Raise ZeroDivisionError
  else
    match SFdiv prec emax (exact_of_int a) (exact_of_int b) with
    | S754_infinity _ => Raise OverflowError
    | q => Ok q
    end.

(** [int(x)]: truncation toward zero. *)
Definition int_of_float (x : float) : result Z :=
  match x with
  | S754_nan => Raise ValueError
  | S754_infinity _ => Raise OverflowError
  | S754_zero _ => Ok 0
  | S754_finite s m e => Ok (cond_Zopp s (Z.shiftl (Zpos m) e))
  end.

(** [round(x)]: the nearest integer, ties to even. *)
Definition round_of_float (x : float) : result Z :=
  match x with
  | S754_nan => Raise ValueError
  | S754_infinity _ => Raise OverflowError
  | S754_zero _ => Ok 0
  | S754_finite s m e =>
      if 0 <=? e then Ok (cond_Zopp s (Z.shiftl (Zpos m) e))
      else
        let q := Z.shiftr (Zpos m) (- e) in
        let r := Zpos m - Z.shiftl q (- e) in
        let up :=
          match Z.compare (2 * r) (Z.shiftl 1 (- e)) with
          | Lt => false
          | Eq => Z.odd q
          | Gt => true
          end in
        Ok (cond_Zopp s (if up then q + 1 else q))
  end.

End PyFloat.

Import PyFloat.

(** ** [datetime.timedelta] *)

Module PyTimedelta.

Record timedelta : Type := mk_timedelta
  { days : Z; seconds : Z; microseconds : Z }.

Definition MAX_DELTA_DAYS : Z := 999999999.

(** [timedelta(milliseconds=ms)] for an [int]: exact normalisation to
    days, seconds and microseconds; more than [MAX_DELTA_DAYS] days in
    either direction is an [OverflowError]. *)
Definition of_milliseconds (ms : Z) : result timedelta :=
  let us := ms * 1000 in
  let s := us / 1000000 in
  let d := s / 86400 in
  if MAX_DELTA_DAYS <? Z.abs d then Raise OverflowError
  else Ok (mk_timedelta d (s mod 86400) (us mod 1000000)).

(** [t.total_seconds()] *)
Definition total_seconds (t : timedelta) : result float :=
  int_true_divide ((days t * 86400 + seconds t) * 1000000 + microseconds t) 1000000.

End PyTimedelta.

(** ** [to_timestamp] *)

(** [ms] is an [int]: [generate_srt] only passes sums of [int]s. *)

Definition COLON : str := py ":".
Definition COMMA : str := py ",".
Definition ARROW : str := py " --> ".

Definition to_timestamp (ms : Z) : result str :=
  t <- PyTimedelta.of_milliseconds ms ;;
  x <- PyTimedelta.total_seconds t ;;
  total_seconds <- int_of_float x ;;
  let hours := total_seconds / 3600 in
  let minutes := (total_seconds mod 3600) / 60 in
  let seconds := total_seconds mod 60 in
  let millis := ms mod 1000 in
  Ok (format_zero 2 hours ++ COLON ++ format_zero 2 minutes ++ COLON
      ++ format_zero 2 seconds ++ COMMA ++ format_zero 3 millis).

(** ** [generate_srt] *)

(** The [for] loop from the [i]-th chunk on: [srt_lines] and [curr_ms]
    are the loop's variables, [dur_ms] and [gap_ms] are fixed before the
    loop. A timestamp that raises ends the call, whatever was appended
    so far. *)
Fixpoint srt_loop (dur_ms gap_ms : Z) (i : Z) (chunks : list str)
    (srt_lines : list str) (curr_ms : Z) : result (list str) :=
  match chunks with
  | [] => Ok srt_lines
  | text :: rest =>
      let start := curr_ms in
      let end_ := start + dur_ms in
      ts_start <- to_timestamp start ;;
      ts_end <- to_timestamp end_ ;;
      let srt_lines :=
        srt_lines ++ [str_of_int i; ts_start ++ ARROW ++ ts_end; text; []] in
      srt_loop dur_ms gap_ms (i + 1) rest srt_lines (end_ + gap_ms)
  end.

Definition thousand : float := float_of_int 1000.

(** The effective cue duration, [max(500, int(duration_sec * 1000))]. *)
Definition effective_duration (duration_sec : float) : result Z :=
  d <- int_of_float (float_mul duration_sec thousand) ;;
  Ok (Z.max 500 d).

(** [int(start_ms)] and [int(gap_ms)] leave an [int] argument as it
    is. *)
Definition generate_srt (chunks : list str) (duration_sec : float)
    (gap_ms start_ms : Z) : result str :=
  let curr_ms := Z.max 0 start_ms in
  dur_ms <- effective_duration duration_sec ;;
  let gap_ms := Z.max 0 gap_ms in
  srt_lines <- srt_loop dur_ms gap_ms 1 chunks [] curr_ms ;;
  Ok (strip (join LF srt_lines) ++ [LF]).

(** ** Specification vocabulary *)

(** The time intervals of [n] consecutive cues: the first starts at
    [curr_ms], each lasts [dur_ms], and [gap_ms] separates one cue's end
    from the next cue's start. *)
Fixpoint cue_intervals (n : nat) (dur_ms gap_ms curr_ms : Z) : list (Z * Z) :=
  match n with
  | O => []
  | S n' =>
      (curr_ms, curr_ms + dur_ms)
      :: cue_intervals n' dur_ms gap_ms (curr_ms + dur_ms + gap_ms)
  end.

(** The timestamp line of an interval, and of each interval in turn. *)
Definition interval_line (iv : Z * Z) : result str :=
  ts_start <- to_timestamp (fst iv) ;;
  ts_end <- to_timestamp (snd iv) ;;
  Ok (ts_start ++ ARROW ++ ts_end).

Fixpoint interval_lines (ivs : list (Z * Z)) : result (list str) :=
  match ivs with
  | [] => Ok []
  | iv :: ivs' =>
      line <- interval_line iv ;;
      more <- interval_lines ivs' ;;
      Ok (line :: more)
  end.

(** The blocks of a document, numbered from [i] on: an index line, a
    timestamp line and the cue text. *)
Fixpoint numbered_blocks (i : Z) (lines : list str) (chunks : list str)
    : list (list str) :=
  match lines, chunks with
  | line :: lines', text :: rest =>
      [str_of_int i; line; text] :: numbered_blocks (i + 1) lines' rest
  | _, _ => []
  end.

(** The lines of a document: every block followed by an empty line. *)
Definition block_lines (blocks : list (list str)) : list str :=
  List.concat (map (fun b => b ++ [[]]) blocks).

(** The SRT document with the given intervals and cue texts. *)
Definition srt_document (ivs : list (Z * Z)) (chunks : list str) : result str :=
  lines <- interval_lines ivs ;;
  Ok (strip (join LF (block_lines (numbered_blocks 1 lines chunks))) ++ [LF]).

(** The effective cue duration as the specification words it:
    [max(500, round(cueDurationSec * 1000))]. *)
Definition rounded_duration (duration_sec : float) : result Z :=
  d <- round_of_float (float_mul duration_sec thousand) ;;
  Ok (Z.max 500 d).

(** A cue as the data model has it: a non-empty string with no leading
    or trailing whitespace and no line break inside. *)
Definition valid_cue (c : str) : bool :=
  negb (str_eqb c []) && str_eqb (strip c) c
  && forallb (fun ch => negb (is_linebreak ch)) c.

(** What the segmenter promises of each piece: it is not empty and
    neither starts nor ends with whitespace. *)
Definition starts_with_space (s : str) : bool :=
  match s with
  | c :: _ => is_space c
  | [] => false
  end.

Definition is_trimmed_nonempty (s : str) : bool :=
  negb (str_eqb s []) && negb (starts_with_space s)
  && negb (starts_with_space (rev s)).

(** The text the segmenter splits: the input trimmed, with runs of
    spaces and tabs collapsed. *)
Definition cleaned_text (text : str) : str := sub_blank_runs false (strip text).

(** Re-parsing a document by splitting on blank lines, in the words of
    the specification: the lines of the text, separated by LF, are
    grouped into maximal runs of non-empty lines, the blocks. [cur]
    holds the current run, last line first. *)
Fixpoint group_blocks (cur : list str) (lines : list str) : list (list str) :=
  match lines with
  | [] => match cur with [] => [] | _ => [rev cur] end
  | [] :: rest =>
      match cur with
      | [] => group_blocks [] rest
      | _ => rev cur :: group_blocks [] rest
      end
  | l :: rest => group_blocks (l :: cur) rest
  end.

Definition split_on_blank_lines (doc : str) : list (list str) :=
  group_blocks [] (split LF doc).

(** The largest millisecond count [timedelta] holds is one below this:
    [10^9] days. *)
Definition TIMEDELTA_LIMIT_MS : Z := 86400000 * 1000000000.

(** The first millisecond count whose whole seconds the float quotient
    of [total_seconds] gets wrong: 2^44 seconds and 999 milliseconds. *)
Definition EXACT_LIMIT_MS : Z := 2 ^ 44 * 1000 + 999.

(** The first two statements of [to_timestamp]:
    [int(timedelta(milliseconds=ms).total_seconds())]. *)
Definition whole_seconds (ms : Z) : result Z :=
  t <- PyTimedelta.of_milliseconds ms ;;
  x <- PyTimedelta.total_seconds t ;;
  int_of_float x.

(** A string without LF. *)
Definition no_lf (s : str) : bool := forallb (fun c => negb (c =? LF)%N) s.

(** Rounding to binary64 first drops the low bits of a mantissa [m] at
    exponent [e] that the format has no room for; this is their number. *)
Definition excess (m e : Z) : Z := Z.max 0 (fexp prec emax (Zdigits2 m + e) - e).

(** The mantissa after that first shift, rounded to nearest, ties to
    even, on the bits shifted out and the location [l] of the exact
    value. *)
Definition rounded_mantissa (m e : Z) (l : location) : Z :=
  let mrs := fst (shr_fexp prec emax m e l) in
  round_nearest_even (shr_m mrs) (loc_of_shr_record mrs).

(** Float literals used below: 0.25, 0.5, 2.5, 0.9999 (that is,
    [0x1.fff2e48e8a71ep-1]), 2^1023 and -2^1023. *)
Definition quarter : float := S754_finite false 0x10000000000000 (-54).
Definition half : float := S754_finite false 0x10000000000000 (-53).
Definition two_and_a_half : float := S754_finite false 0x14000000000000 (-51).
Definition f0_9999 : float := S754_finite false 0x1fff2e48e8a71e (-53).
Definition huge : float := S754_finite false 0x10000000000000 971.
Definition minus_huge : float := S754_finite true 0x10000000000000 971.

(** ** Vocabulary of pieces and documents *)

(** The characters of a string that are not whitespace, in order. *)
Definition visible (s : str) : str := filter (fun c => negb (is_space c)) s.

(** A string as [re.sub(r"[ \t]+", " ", _)] leaves it: no tab and no
    two spaces in a row. [prev_space] tells whether a space comes just
    before the string. *)
Fixpoint blank_collapsed (prev_space : bool) (s : str) : bool :=
  match s with
  | [] => true
  | c :: r =>
      negb (c =? TAB)%N && negb (prev_space && (c =? SPACE)%N)
      && blank_collapsed (c =? SPACE)%N r
  end.

(** A string on one line: none of the line boundaries of
    [str.splitlines] is in it. *)
Definition no_linebreak (s : str) : bool :=
  forallb (fun c => negb (is_linebreak c)) s.

(** Whether the last character is [.], [!] or [?]; [f] answers for the
    empty string. *)
Definition after_end (f : bool) (s : str) : bool :=
  match rev s with
  | c :: _ => is_sentence_end c
  | [] => f
  end.

Definition ends_with_sentence_end (s : str) : bool := after_end false s.

(** A string with no place where [re.split(r"(?<=[.!?])\s+", _)] cuts:
    no sentence end followed by whitespace. [f] tells whether a sentence
    end comes just before the string. *)
Fixpoint no_boundary (f : bool) (s : str) : bool :=
  match s with
  | [] => true
  | c :: r => negb (f && is_space c) && no_boundary (is_sentence_end c) r
  end.

(** Whether the last character is a space; [f] answers for the empty
    string. *)
Definition prev_space (f : bool) (s : str) : bool :=
  match rev s with
  | c :: _ => (c =? SPACE)%N
  | [] => f
  end.

(** A cue that the line segmenter returns as it is, and a piece that the
    sentence segmenter returns as it is. *)
Definition tidy_cue (c : str) : bool := valid_cue c && blank_collapsed false c.

Definition tidy_sentence (c : str) : bool :=
  is_trimmed_nonempty c && blank_collapsed false c && no_boundary false c.

(** A trimmed, non-empty string by its first and last character. *)
Definition trimmed (c : str) : Prop :=
  (exists c0 r0, c = c0 :: r0 /\ is_space c0 = false)
  /\ (exists q a, c = q ++ [a] /\ is_space a = false).

(** The cue text of a re-parsed block: its third line. *)
Definition cue_text (block : list str) : str := nth 2 block [].

(** The decimal digit [d] as a character, and the two and three digits
    of a number below 100 and below 1000. *)
Definition digit (d : Z) : char := (48 + Z.to_N d)%N.

Definition two_digits (z : Z) : str := [digit (z / 10); digit (z mod 10)].

Definition three_digits (z : Z) : str :=
  [digit (z / 100); digit (z / 10 mod 10); digit (z mod 10)].

(** ** Reading a document back *)

(** A decimal digit, and the number a string of digits writes: digit by
    digit from the left, [acc] being the number read so far. *)
Definition is_digit (c : char) : bool := ((0x30 <=? c) && (c <=? 0x39))%N.

Fixpoint read_digits (acc : Z) (s : str) : option Z :=
  match s with
  | [] => Some acc
  | c :: r =>
      if is_digit c then read_digits (10 * acc + (Z.of_N c - 48)) r else None
  end.

Definition read_number (s : str) : option Z :=
  match s with
  | [] => None
  | _ :: _ => read_digits 0 s
  end.

(** A string that does not hold the character [sep]. *)
Definition without (sep : char) (s : str) : bool :=
  forallb (fun c => negb (c =? sep)%N) s.

(** The millisecond count a timestamp [H:M:S,m] shows: three fields
    separated by colons, the last one split at the comma, minutes and
    seconds below 60 and milliseconds below 1000. *)
Definition read_timestamp (s : str) : option Z :=
  match split 0x3A%N s with
  | [hours; minutes; rest] =>
      match split 0x2C%N rest with
      | [seconds; millis] =>
          match read_number hours, read_number minutes,
                read_number seconds, read_number millis with
          | Some h, Some m, Some sec, Some ms =>
              if (m <? 60) && (sec <? 60) && (ms <? 1000)
              then Some (((h * 60 + m) * 60 + sec) * 1000 + ms)
              else None
          | _, _, _, _ => None
          end
      | _ => None
      end
  | _ => None
  end.

(** The interval a timestamp line [start --> end] shows, and the one
    the second line of a block shows. *)
Definition read_interval (line : str) : option (Z * Z) :=
  match split SPACE line with
  | [ts_start; arrow; ts_end] =>
      if str_eqb arrow (py "-->") then
        match read_timestamp ts_start, read_timestamp ts_end with
        | Some s, Some e => Some (s, e)
        | _, _ => None
        end
      else None
  | _ => None
  end.

Definition block_interval (block : list str) : option (Z * Z) :=
  read_interval (nth 1 block []).

(** A well-formed document, by the data model: its blocks are numbered
    from 1, each holds an index line, a timestamp line and a valid cue
    text, each interval starts at 0 or later and ends after it starts,
    and no interval starts before the one of the block before has
    ended; the text ends with one LF after the last block. [i] is the
    index due and [cursor] the end of the interval before. *)
Fixpoint well_formed_blocks (i : Z) (cursor : Z) (blocks : list (list str)) : bool :=
  match blocks with
  | [] => true
  | [index; line; text] :: rest =>
      str_eqb index (str_of_int i) && valid_cue text
      && match read_interval line with
         | Some (s, e) =>
             (cursor <=? s) && (s <? e) && well_formed_blocks (i + 1) e rest
         | None => false
         end
  | _ :: _ => false
  end.

Definition well_formed_document (doc : str) : bool :=
  str_eqb doc (strip doc ++ [LF])
  && well_formed_blocks 1 0 (split_on_blank_lines doc).

(** The text [generate_srt] returns, by the timestamp lines of its
    blocks: [("\n".join(srt_lines)).strip() + "\n"]. *)
Definition document_of_lines (lines chunks : list str) : str :=
  strip (join LF (block_lines (numbered_blocks 1 lines chunks))) ++ [LF].

(** * Properties *)

Section StrFacts.

Lemma str_eqb_eq (a b : str) : str_eqb a b = true <-> a = b.
Proof.
  unfold str_eqb. destruct (list_eq_dec N.eq_dec a b); split; congruence.
Qed.

Lemma str_eqb_neq (a b : str) : str_eqb a b = false <-> a <> b.
Proof.
  unfold str_eqb. destruct (list_eq_dec N.eq_dec a b); split; congruence.
Qed.

Lemma lstrip_head (s : str) (c : char) (r : str) :
  lstrip s = c :: r -> is_space c = false.
Proof.
  induction s as [|a s IH]; simpl; [discriminate|].
  destruct (is_space a) eqn:Ha; [exact IH|].
  intros H. injection H as <- _. exact Ha.
Qed.

Lemma lstrip_fixed (c : char) (r : str) :
  is_space c = false -> lstrip (c :: r) = c :: r.
Proof. intros H. simpl. now rewrite H. Qed.

Lemma lstrip_idem (s : str) : lstrip (lstrip s) = lstrip s.
Proof.
  destruct (lstrip s) as [|c r] eqn:E; [reflexivity|].
  apply lstrip_fixed. exact (lstrip_head _ _ _ E).
Qed.

(** Stripping on the right leaves a string that ends outside
    whitespace alone. *)
Lemma rstrip_snoc (s : str) (c : char) :
  is_space c = false -> rstrip (s ++ [c]) = s ++ [c].
Proof.
  intros H. unfold rstrip. rewrite rev_app_distr. simpl. rewrite H.
  simpl. now rewrite rev_involutive.
Qed.

Lemma rstrip_snoc_space (s : str) (c : char) :
  is_space c = true -> rstrip (s ++ [c]) = rstrip s.
Proof.
  intros H. unfold rstrip. rewrite rev_app_distr. simpl. now rewrite H.
Qed.

Lemma rstrip_nil : rstrip [] = [].
Proof. reflexivity. Qed.

(** What [rstrip] returns is empty or ends outside whitespace, and
    keeps a first character that is not whitespace. *)
Lemma rstrip_cases (s : str) :
  rstrip s = []
  \/ exists p c, rstrip s = p ++ [c] /\ is_space c = false.
Proof.
  unfold rstrip. destruct (lstrip (rev s)) as [|c r] eqn:E.
  - now left.
  - right. exists (rev r), c. split; [reflexivity|].
    exact (lstrip_head _ _ _ E).
Qed.

Lemma rstrip_keeps_head (c : char) (r : str) :
  is_space c = false -> exists r', rstrip (c :: r) = c :: r'.
Proof.
  intros Hc. induction r as [|a r IH] using rev_ind.
  - exists []. exact (rstrip_snoc [] c Hc).
  - destruct (is_space a) eqn:Ha.
    + change (c :: r ++ [a]) with ((c :: r) ++ [a]).
      rewrite rstrip_snoc_space by exact Ha. exact IH.
    + exists (r ++ [a]). change (c :: r ++ [a]) with ((c :: r) ++ [a]).
      now apply rstrip_snoc.
Qed.

Lemma rstrip_idem (s : str) : rstrip (rstrip s) = rstrip s.
Proof.
  unfold rstrip. rewrite rev_involutive. now rewrite lstrip_idem.
Qed.

Lemma strip_cases (s : str) :
  strip s = []
  \/ exists c r, strip s = c :: r /\ is_space c = false.
Proof.
  unfold strip. destruct (lstrip s) as [|c r] eqn:E.
  - now left.
  - right. pose proof (lstrip_head _ _ _ E) as Hc.
    destruct (rstrip_keeps_head c r Hc) as [r' Hr]. now exists c, r'.
Qed.

Lemma strip_idem (s : str) : strip (strip s) = strip s.
Proof.
  destruct (strip_cases s) as [E | (c & r & E & Hc)].
  - now rewrite E.
  - rewrite E. unfold strip at 1. rewrite lstrip_fixed by exact Hc.
    rewrite <- E. unfold strip. apply rstrip_idem.
Qed.

End StrFacts.

(** ** The segmenter *)

Section Segmenter.

Lemma strip_trimmed (p : str) :
  strip p <> [] -> is_trimmed_nonempty (strip p) = true.
Proof.
  intros Hne. unfold is_trimmed_nonempty.
  apply str_eqb_neq in Hne as Hb. rewrite Hb. simpl.
  destruct (strip_cases p) as [E | (c & r & E & Hc)]; [contradiction|].
  assert (Hhead : starts_with_space (strip p) = false)
    by (rewrite E; exact Hc).
  rewrite Hhead. simpl.
  unfold strip in *. destruct (rstrip_cases (lstrip p)) as [E' | (q & a & E' & Ha)].
  - rewrite E' in Hne. contradiction.
  - rewrite E'. rewrite rev_app_distr. simpl. now rewrite Ha.
Qed.

Lemma stripped_nonempty_trimmed (parts : list str) :
  forallb is_trimmed_nonempty (stripped_nonempty parts) = true.
Proof.
  unfold stripped_nonempty. induction parts as [|p parts IH]; [reflexivity|].
  simpl. destruct (str_eqb (strip p) []) eqn:E; simpl; [exact IH|].
  rewrite IH, andb_true_r. apply strip_trimmed. now apply str_eqb_neq.
Qed.

Lemma count_contains (c : char) (s : str) :
  0 < count c s -> contains c s = true.
Proof.
  unfold count, contains. induction s as [|a s IH]; simpl; [lia|].
  destruct (N.eqb c a); [reflexivity|]. exact IH.
Qed.

(** The sentence branch, taken whenever the condition of the [if]
    fails. *)
Lemma split_text_sentences (text : str) :
  split_text text (py "sentences")
  = stripped_nonempty (split_sentences (cleaned_text text)).
Proof. reflexivity. Qed.

Lemma split_text_newlines (text : str) :
  split_text text (py "newlines")
  = stripped_nonempty (splitlines (cleaned_text text)).
Proof. reflexivity. Qed.

End Segmenter.

(** C3, as the code has it. With mode "auto" the segmenter counts the LF
    characters of the cleaned text (the input trimmed, blank runs
    collapsed), not the line breaks of the input: when the cleaned text
    holds at least two LF, "auto" returns what "newlines" returns. *)
Theorem auto_is_newlines_on_cleaned_text (text : str) :
  2 <= count LF (cleaned_text text) ->
  split_text text (py "auto") = split_text text (py "newlines").
Proof.
  intros H. rewrite split_text_newlines. unfold split_text.
  fold (cleaned_text text).
  assert (Hc : contains LF (cleaned_text text) = true)
    by (apply count_contains; lia).
  rewrite Hc. apply Z.leb_le in H. rewrite H. reflexivity.
Qed.

Lemma auto_is_newlines_on_cleaned_text_witness :
  let text := join LF [py "line one"; py "line two"; py "line three"] in
  2 <= count LF (cleaned_text text)
  /\ split_text text (py "auto") = [py "line one"; py "line two"; py "line three"]
  /\ split_text text (py "auto") = split_text text (py "newlines").
Proof.
  assert (H : 2 <= count LF
                (cleaned_text (join LF [py "line one"; py "line two"; py "line three"])))
    by (vm_compute; discriminate).
  split; [exact H|]. split; [reflexivity|].
  exact (auto_is_newlines_on_cleaned_text _ H).
Defined.

(** C3 as stated fails: a text with two line breaks, both at its end,
    loses them when it is trimmed, and "auto" then splits on sentences
    where "newlines" keeps the one line. *)
Lemma auto_differs_from_newlines_on_trailing_breaks :
  let text := py "a. b" ++ [LF; LF] in
  count LF text = 2
  /\ split_text text (py "auto") = [py "a."; py "b"]
  /\ split_text text (py "newlines") = [py "a. b"]
  /\ split_text text (py "auto") <> split_text text (py "newlines").
Proof.
  repeat split; try reflexivity. vm_compute. discriminate.
Qed.

(** The other half of mode "auto": with fewer than two LF in the cleaned
    text it returns what "sentences" returns. *)
Lemma auto_is_sentences_on_cleaned_text (text : str) :
  count LF (cleaned_text text) < 2 ->
  split_text text (py "auto") = split_text text (py "sentences").
Proof.
  intros H. rewrite split_text_sentences. unfold split_text.
  fold (cleaned_text text). apply Z.leb_gt in H. rewrite H.
  now rewrite andb_false_r.
Qed.

(** C6. Every string the segmenter returns, in every mode, is non-empty
    and neither starts nor ends with whitespace. *)
Theorem split_text_pieces_trimmed (text mode : str) :
  forallb is_trimmed_nonempty (split_text text mode) = true.
Proof.
  unfold split_text.
  destruct (_ || _); apply stripped_nonempty_trimmed.
Qed.

(** C10. A mode other than "newlines" and "auto" is not rejected: the
    segmenter takes the sentence branch, as for "sentences". *)
Theorem unknown_mode_is_sentences (text mode : str) :
  mode <> py "newlines" -> mode <> py "auto" ->
  split_text text mode = split_text text (py "sentences").
Proof.
  intros Hn Ha. rewrite split_text_sentences. unfold split_text.
  apply str_eqb_neq in Hn, Ha. rewrite Hn, Ha. reflexivity.
Qed.

Lemma unknown_mode_is_sentences_witness :
  split_text (py "Hello world. How are you?") (py "sentense")
  = split_text (py "Hello world. How are you?") (py "sentences")
  /\ split_text (py "Hello world. How are you?") []
     = split_text (py "Hello world. How are you?") (py "sentences").
Proof.
  split; apply unknown_mode_is_sentences; vm_compute; discriminate.
Defined.

(** ** Binary64 arithmetic

    Facts about the standard library's rounding to binary64
    ([binary_round_aux]): what the rounded float is, and what [int(_)]
    makes of it. *)

Section Binary64.

Lemma pow2_pos (k : Z) : 0 < 2 ^ k \/ (k < 0 /\ 2 ^ k = 0).
Proof.
  destruct (Z.lt_ge_cases k 0) as [H|H].
  - right. split; [exact H|]. now apply Z.pow_neg_r.
  - left. apply Z.pow_pos_nonneg; lia.
Qed.

Lemma pow2_gt0 (k : Z) : 0 <= k -> 0 < 2 ^ k.
Proof. intros H. apply Z.pow_pos_nonneg; lia. Qed.

Lemma pow2_add (a b : Z) : 0 <= a -> 0 <= b -> 2 ^ (a + b) = 2 ^ a * 2 ^ b.
Proof. intros. now apply Z.pow_add_r. Qed.

Lemma pow2_succ (k : Z) : 0 <= k -> 2 ^ (k + 1) = 2 * 2 ^ k.
Proof. intros H. rewrite pow2_add by lia. change (2 ^ 1) with 2. lia. Qed.

Lemma pow2_le (a b : Z) : 0 <= a <= b -> 2 ^ a <= 2 ^ b.
Proof. intros H. apply Z.pow_le_mono_r; lia. Qed.

Lemma pow2_lt (a b : Z) : 0 <= a < b -> 2 ^ a < 2 ^ b.
Proof. intros H. apply Z.pow_lt_mono_r; lia. Qed.

Lemma digits2_pos_bounds (p : positive) :
  2 ^ (Zpos (digits2_pos p) - 1) <= Zpos p < 2 ^ Zpos (digits2_pos p).
Proof.
  induction p as [p IH | p IH |]; simpl digits2_pos.
  - rewrite Pos2Z.inj_succ. set (d := Zpos (digits2_pos p)) in *.
    assert (Hd : 1 <= d) by (subst d; lia).
    replace (Z.succ d - 1) with ((d - 1) + 1) by lia.
    replace (Z.succ d) with (d + 1) by lia.
    rewrite !pow2_succ by lia. lia.
  - rewrite Pos2Z.inj_succ. set (d := Zpos (digits2_pos p)) in *.
    assert (Hd : 1 <= d) by (subst d; lia).
    replace (Z.succ d - 1) with ((d - 1) + 1) by lia.
    replace (Z.succ d) with (d + 1) by lia.
    rewrite !pow2_succ by lia. lia.
  - simpl. lia.
Qed.

(** digits as a function of the magnitude *)
Lemma Zdigits2_bounds (m : Z) :
  0 < m -> 1 <= Zdigits2 m /\ 2 ^ (Zdigits2 m - 1) <= m < 2 ^ Zdigits2 m.
Proof.
  destruct m as [|p|p]; try lia. intros _. simpl. split; [lia|]. apply digits2_pos_bounds.
Qed.

Lemma Zdigits2_le (m k : Z) : 0 < m -> 0 <= k -> m < 2 ^ k -> Zdigits2 m <= k.
Proof.
  intros Hm Hk Hlt. destruct (Zdigits2_bounds m Hm) as [H1 [H2 _]].
  destruct (Z.le_gt_cases (Zdigits2 m) k) as [|Hgt]; [assumption|].
  assert (2 ^ k <= 2 ^ (Zdigits2 m - 1)) by (apply pow2_le; lia). lia.
Qed.

Lemma Zdigits2_ge (m k : Z) : 0 < m -> 2 ^ k <= m -> k + 1 <= Zdigits2 m.
Proof.
  intros Hm Hle. destruct (Zdigits2_bounds m Hm) as [H1 [_ H2]].
  destruct (Z.le_gt_cases (k + 1) (Zdigits2 m)) as [|Hgt]; [assumption|].
  destruct (Z.lt_ge_cases k 0).
  - lia.
  - assert (2 ^ Zdigits2 m <= 2 ^ k) by (apply pow2_le; lia). lia.
Qed.

Lemma Zdigits2_0 : Zdigits2 0 = 0.
Proof. reflexivity. Qed.

(** One step of the right shift halves the mantissa. *)
Lemma shr_1_m (mrs : shr_record) :
  0 <= shr_m mrs -> shr_m (shr_1 mrs) = shr_m mrs / 2.
Proof.
  destruct mrs as [m r s]. cbn [shr_m]. intros Hm.
  destruct m as [|[p|p|]|p]; cbn [shr_1 shr_m]; try reflexivity; try lia.
  - apply Z.div_unique with 1; lia.
  - apply Z.div_unique with 0; lia.
Qed.

Lemma div_pow2_nonneg (m k : Z) : 0 <= m -> 0 <= m / 2 ^ k.
Proof.
  intros Hm. destruct (pow2_pos k) as [H | [_ H]].
  - apply Z.div_pos; lia.
  - rewrite H. now rewrite Z.div_0_r.
Qed.

Lemma iter_shr_1_m (p : positive) (mrs : shr_record) :
  0 <= shr_m mrs ->
  shr_m (iter_pos shr_1 p mrs) = shr_m mrs / 2 ^ Zpos p.
Proof.
  revert mrs. induction p as [p IH | p IH |]; intros mrs Hm; simpl iter_pos.
  - assert (H1 : 0 <= shr_m (shr_1 mrs)).
    { rewrite shr_1_m by exact Hm. apply Z.div_pos; lia. }
    assert (H2 : 0 <= shr_m (iter_pos shr_1 p (shr_1 mrs))).
    { rewrite IH by exact H1. now apply div_pow2_nonneg. }
    rewrite IH by exact H2. rewrite IH by exact H1. rewrite shr_1_m by exact Hm.
    rewrite !Z.div_div by (try apply pow2_gt0; lia).
    f_equal. replace (Zpos p~1) with (1 + Zpos p + Zpos p) by lia.
    rewrite !pow2_add by lia. change (2 ^ 1) with 2. lia.
  - assert (H2 : 0 <= shr_m (iter_pos shr_1 p mrs)).
    { rewrite IH by exact Hm. now apply div_pow2_nonneg. }
    rewrite IH by exact H2. rewrite IH by exact Hm.
    rewrite !Z.div_div by (try apply pow2_gt0; lia).
    f_equal. replace (Zpos p~0) with (Zpos p + Zpos p) by lia.
    now rewrite pow2_add by lia.
  - now apply shr_1_m.
Qed.

Lemma fexp_eq (k : Z) : fexp prec emax k = Z.max (k - 53) (-1074).
Proof. reflexivity. Qed.

Lemma excess_eq (m e : Z) :
  excess m e = Z.max 0 (Z.max (Zdigits2 m - 53) (- 1074 - e)).
Proof. unfold excess. rewrite fexp_eq. lia. Qed.

Lemma shr_spec (mrs : shr_record) (e n : Z) :
  0 <= shr_m mrs ->
  shr_m (fst (shr mrs e n)) = shr_m mrs / 2 ^ Z.max 0 n
  /\ snd (shr mrs e n) = e + Z.max 0 n.
Proof.
  intros Hm. destruct n as [|p|p]; cbn [shr fst snd].
  - change (Z.max 0 0) with 0. rewrite Z.pow_0_r, Z.div_1_r. lia.
  - replace (Z.max 0 (Zpos p)) with (Zpos p) by lia.
    now rewrite iter_shr_1_m by exact Hm.
  - replace (Z.max 0 (Zneg p)) with 0 by lia.
    rewrite Z.pow_0_r, Z.div_1_r. lia.
Qed.

Lemma shr_m_of_loc (m : Z) (l : location) : shr_m (shr_record_of_loc m l) = m.
Proof. destruct l as [|[]]; reflexivity. Qed.

Lemma shr_fexp_spec (m e : Z) (l : location) :
  0 <= m ->
  shr_m (fst (shr_fexp prec emax m e l)) = m / 2 ^ excess m e
  /\ snd (shr_fexp prec emax m e l) = e + excess m e.
Proof.
  intros Hm. unfold shr_fexp, excess.
  pose proof (shr_spec (shr_record_of_loc m l) e
                (fexp prec emax (Zdigits2 m + e) - e)) as H.
  rewrite shr_m_of_loc in H. now apply H.
Qed.

Lemma shr_fexp_exact (m e : Z) :
  excess m e = 0 ->
  shr_fexp prec emax m e loc_Exact = (Build_shr_record m false false, e).
Proof.
  unfold shr_fexp, excess. intros H.
  destruct (fexp prec emax (Zdigits2 m + e) - e) as [|p|p]; try reflexivity. lia.
Qed.

Lemma round_nearest_even_bounds (m : Z) (l : location) :
  m <= round_nearest_even m l <= m + 1.
Proof.
  destruct l as [|[]]; cbn [round_nearest_even]; try lia.
  destruct (Z.even m); lia.
Qed.

Lemma excess_nonneg (m e : Z) : 0 <= excess m e.
Proof. unfold excess. lia. Qed.

(** After the first shift the mantissa fits in 53 bits. *)
Lemma shifted_fits (M E : Z) : 0 < M -> M / 2 ^ excess M E < 2 ^ 53.
Proof.
  intros HM. destruct (Zdigits2_bounds M HM) as [Hd [_ Hlt]].
  pose proof (excess_nonneg M E) as Hx. rewrite excess_eq in *.
  set (x := Z.max 0 _) in *.
  apply Z.div_lt_upper_bound; [now apply pow2_gt0|].
  rewrite <- pow2_add by lia.
  apply Z.lt_le_trans with (1 := Hlt). apply pow2_le. lia.
Qed.

Lemma rounded_mantissa_bounds (M E : Z) (l : location) :
  0 <= M ->
  M / 2 ^ excess M E <= rounded_mantissa M E l <= M / 2 ^ excess M E + 1.
Proof.
  intros HM. unfold rounded_mantissa.
  destruct (shr_fexp_spec M E l HM) as [<- _]. apply round_nearest_even_bounds.
Qed.

Lemma loc_of_shr_record_of_loc (m : Z) (l : location) :
  loc_of_shr_record (shr_record_of_loc m l) = l.
Proof. destruct l as [|[]]; reflexivity. Qed.

(** Nothing shifted out: the mantissa is rounded on the location alone. *)
Lemma rounded_mantissa_unshifted (M E : Z) (l : location) :
  excess M E = 0 -> rounded_mantissa M E l = round_nearest_even M l.
Proof.
  unfold rounded_mantissa, shr_fexp, excess. intros H.
  destruct (fexp prec emax (Zdigits2 M + E) - E) as [|p|p]; try lia;
    cbn [shr fst]; now rewrite shr_m_of_loc, loc_of_shr_record_of_loc.
Qed.

(** One bit shifted out: rounding up needs that bit set. *)
Lemma rounded_mantissa_shifted_once (M E : Z) (l : location) :
  0 < M -> excess M E = 1 ->
  rounded_mantissa M E l = M / 2 + 1 -> Z.odd M = true.
Proof.
  unfold rounded_mantissa, shr_fexp, excess. intros HM H.
  assert (Hn : fexp prec emax (Zdigits2 M + E) - E = 1) by lia.
  rewrite Hn. cbn [shr iter_pos fst].
  destruct M as [|[p|p|]|p]; try lia; try reflexivity.
  intros Hup. exfalso.
  assert (Hhalf : Zpos p~0 / 2 = Zpos p)
    by (symmetry; apply Z.div_unique with 0; lia).
  rewrite Hhalf in Hup.
  destruct l as [|[]]; cbn in Hup; lia.
Qed.

Lemma binary_round_aux_spec (s : bool) (M E : Z) (l : location) :
  0 < M ->
  exists x2 : Z,
    0 <= x2 <= 1
    /\ rounded_mantissa M E l = rounded_mantissa M E l / 2 ^ x2 * 2 ^ x2
    /\ binary_round_aux prec emax s M E l =
       match rounded_mantissa M E l / 2 ^ x2 with
       | Z0 => S754_zero s
       | Zpos m =>
           if E + excess M E + x2 <=? emax - prec
           then S754_finite s m (E + excess M E + x2)
           else S754_infinity s
       | Zneg _ => S754_nan
       end.
Proof.
  intros HM. pose proof (rounded_mantissa_bounds M E l ltac:(lia)) as Hb.
  unfold binary_round_aux. unfold rounded_mantissa in *.
  destruct (shr_fexp_spec M E l) as [Hm1 He1]; [lia|].
  destruct (shr_fexp prec emax M E l) as [mrs1 e1] eqn:S1. cbn [fst snd] in *.
  set (M2 := round_nearest_even (shr_m mrs1) (loc_of_shr_record mrs1)) in *.
  assert (HM1 : 0 <= M / 2 ^ excess M E) by (apply div_pow2_nonneg; lia).
  destruct (shr_fexp_spec M2 e1 loc_Exact) as [Hm2 He2]; [lia|].
  destruct (shr_fexp prec emax M2 e1 loc_Exact) as [mrs2 e2] eqn:S2.
  cbn [fst snd] in Hm2, He2.
  exists (excess M2 e1).
  pose proof (shifted_fits M E HM) as Hfit.
  pose proof (excess_nonneg M E) as Hx1. pose proof (excess_nonneg M2 e1) as Hx2.
  assert (Hx2' : excess M2 e1 <= 1 /\ (excess M2 e1 = 1 -> M2 = 2 ^ 53)).
  { assert (He1' : - 1074 <= e1) by (rewrite He1, (excess_eq M E); lia).
    rewrite (excess_eq M2 e1).
    destruct (Z.eq_dec M2 0) as [-> | Hnz]; [rewrite Zdigits2_0; lia|].
    assert (Hd : Zdigits2 M2 <= 54).
    { apply Zdigits2_le; lia. }
    split; [lia|]. intros Hone.
    assert (Hd' : Zdigits2 M2 = 54) by lia.
    destruct (Zdigits2_bounds M2) as [_ [Hlo _]]; [lia|].
    rewrite Hd' in Hlo. change (54 - 1) with 53 in Hlo. lia. }
  destruct Hx2' as [Hx2le Hx2one].
  split; [lia|]. split.
  { destruct (Z.eq_dec (excess M2 e1) 0) as [-> | Hne].
    - rewrite Z.pow_0_r, Z.div_1_r. lia.
    - assert (H1 : excess M2 e1 = 1) by lia.
      rewrite H1, (Hx2one H1). reflexivity. }
  rewrite Hm2, He2, He1. reflexivity.
Qed.

Lemma shiftl_neg (a n : Z) : n <= 0 -> Z.shiftl a n = a / 2 ^ (- n).
Proof.
  intros H. rewrite <- (Z.opp_involutive n) at 1.
  rewrite Z.shiftl_opp_r. apply Z.shiftr_div_pow2. lia.
Qed.

Lemma cond_Zopp_0 (s : bool) : cond_Zopp s 0 = 0.
Proof. now destruct s. Qed.

(** The float [M * 2^E] rounded to binary64, then truncated to an
    integer, when the rounded value has no bit above the unit. *)
Lemma int_of_rounded (s : bool) (M E : Z) (l : location) :
  0 < M -> E + excess M E <= 0 ->
  is_finite (binary_round_aux prec emax s M E l) = true
  /\ int_of_float (binary_round_aux prec emax s M E l)
     = Ok (cond_Zopp s (rounded_mantissa M E l / 2 ^ (- (E + excess M E)))).
Proof.
  intros HM He.
  pose proof (rounded_mantissa_bounds M E l ltac:(lia)) as Hb.
  destruct (binary_round_aux_spec s M E l HM) as (x2 & Hx2 & Hdiv & ->).
  set (M2 := rounded_mantissa M E l) in *.
  set (e1 := E + excess M E) in *.
  assert (HM1 : 0 <= M / 2 ^ excess M E) by (apply div_pow2_nonneg; lia).
  assert (HM2 : 0 <= M2) by lia.
  pose proof (div_pow2_nonneg M2 x2 HM2) as Hq.
  destruct (M2 / 2 ^ x2) as [|m|m] eqn:Eq; [| |lia].
  - split; [reflexivity|]. cbn [int_of_float].
    rewrite Hdiv, Z.mul_0_l. change (0 / 2 ^ (- e1)) with 0.
    now rewrite cond_Zopp_0.
  - assert (Hfin : (e1 + x2 <=? emax - prec) = true)
      by (apply Z.leb_le; unfold emax, prec; lia).
    rewrite Hfin. split; [reflexivity|]. cbn [int_of_float]. do 2 f_equal.
    rewrite Hdiv.
    destruct (Z.eq_dec x2 0) as [-> | Hne].
    + rewrite Z.add_0_r, Z.pow_0_r, Z.mul_1_r. now apply shiftl_neg.
    + assert (x2 = 1) by lia. subst x2. change (2 ^ 1) with 2.
      destruct (Z.eq_dec e1 0) as [-> | Hne1].
      * rewrite Z.shiftl_mul_pow2 by lia. change (2 ^ (0 + 1)) with 2.
        change (- 0) with 0. now rewrite Z.pow_0_r, Z.div_1_r.
      * rewrite shiftl_neg by lia.
        replace (- e1) with ((- (e1 + 1)) + 1) by lia.
        rewrite pow2_succ by lia.
        assert (0 < 2 ^ (- (e1 + 1))) by (apply pow2_gt0; lia).
        rewrite (Z.mul_comm 2). rewrite Z.div_mul_cancel_r; lia.
Qed.

Lemma thousand_eq : thousand = S754_finite false 8796093022208000 (-43).
Proof. reflexivity. Qed.

Lemma rounded_sign (s : bool) (M E : Z) (l : location) :
  0 < M ->
  match binary_round_aux prec emax s M E l with
  | S754_zero s' | S754_finite s' _ _ | S754_infinity s' => s' = s
  | S754_nan => False
  end.
Proof.
  intros HM.
  pose proof (rounded_mantissa_bounds M E l ltac:(lia)) as Hb.
  destruct (binary_round_aux_spec s M E l HM) as (x2 & Hx2 & _ & ->).
  assert (HM1 : 0 <= M / 2 ^ excess M E) by (apply div_pow2_nonneg; lia).
  assert (Hq : 0 <= rounded_mantissa M E l / 2 ^ x2)
    by (apply div_pow2_nonneg; lia).
  destruct (rounded_mantissa M E l / 2 ^ x2); [reflexivity | | lia].
  now destruct (_ <=? _).
Qed.

(** A positive binary64 value below one half, as a bound on its
    mantissa. *)
Lemma below_half_mantissa (m : positive) (e : Z) :
  is_binary64 (S754_finite false m e) = true ->
  float_ltb (S754_finite false m e) half = true ->
  e <= -53 /\ Zpos m < 2 ^ (- e - 1).
Proof.
  unfold is_binary64, float_ltb, SFltb, half. cbn [valid_binary SFcompare].
  unfold bounded, canonical_mantissa. rewrite fexp_eq.
  intros Hv Hlt. apply andb_true_iff in Hv as [Hc _]. apply Z.eqb_eq in Hc.
  destruct (digits2_pos_bounds m) as [_ Hm].
  destruct (Z.compare_spec e (-53)) as [-> | He | He]; try discriminate.
  - split; [lia|]. change (- -53 - 1) with 52.
    destruct (Pos.compare_cont Eq m 4503599627370496) eqn:Ec; try discriminate.
    exact (proj1 (Pos.compare_lt_iff m 4503599627370496) Ec).
  - split; [lia|]. apply Z.lt_le_trans with (1 := Hm). apply pow2_le. lia.
Qed.

Lemma effective_duration_below_half (d : float) :
  is_binary64 d = true -> float_ltb d half = true ->
  is_finite (float_mul d thousand) = true ->
  effective_duration d = Ok 500.
Proof.
  intros Hv Hlt Hfin. unfold effective_duration. rewrite thousand_eq in *.
  destruct d as [s | s | | s m e].
  - reflexivity.
  - discriminate Hfin.
  - discriminate Hlt.
  - unfold float_mul in *. cbn [SFmul] in *.
    set (M := Zpos (m * 8796093022208000)) in *. set (E := e + -43) in *.
    destruct s; cbn [xorb] in *.
    + pose proof (rounded_sign true M E loc_Exact eq_refl) as Hs.
      destruct (binary_round_aux prec emax true M E loc_Exact) as [s'|s'| |s' m' e'].
      * reflexivity.
      * discriminate Hfin.
      * contradiction.
      * subst s'. cbn [int_of_float bind cond_Zopp]. f_equal.
        assert (0 <= Z.shiftl (Zpos m') e') by (apply Z.shiftl_nonneg; lia). lia.
    + destruct (below_half_mantissa m e Hv Hlt) as [He Hm].
      assert (HM : 0 < M) by reflexivity.
      assert (HMval : M = Zpos m * 1000 * 2 ^ 43) by (subst M; lia).
      assert (Hp : 0 < 2 ^ (- e - 1)) by (apply pow2_gt0; lia).
      assert (Hlt500 : M < 500 * 2 ^ (- E)).
      { subst E. replace (- (e + -43)) with ((- e - 1) + 44) by lia.
        rewrite pow2_add by lia. rewrite HMval. lia. }
      assert (Hd : Zdigits2 M <= 9 - E).
      { apply Zdigits2_le; [exact HM | lia |].
        replace (9 - E) with (9 + - E) by lia. rewrite pow2_add by lia.
        change (2 ^ 9) with 512. assert (0 < 2 ^ (- E)) by (apply pow2_gt0; lia). lia. }
      assert (He1 : E + excess M E <= 0) by (rewrite excess_eq; lia).
      destruct (int_of_rounded false M E loc_Exact HM He1) as [_ ->].
      pose proof (rounded_mantissa_bounds M E loc_Exact ltac:(lia)) as Hb.
      set (M2 := rounded_mantissa M E loc_Exact) in *.
      cbn [bind cond_Zopp]. f_equal.
      pose proof (excess_nonneg M E) as Hx.
      assert (Hp1 : 0 < 2 ^ (- (E + excess M E))) by (apply pow2_gt0; lia).
      assert (Hp2 : 0 < 2 ^ excess M E) by (apply pow2_gt0; lia).
      assert (Hq : M / 2 ^ excess M E < 500 * 2 ^ (- (E + excess M E))).
      { apply Z.div_lt_upper_bound; [exact Hp2|].
        replace (2 ^ excess M E * (500 * 2 ^ (- (E + excess M E))))
          with (500 * (2 ^ (- (E + excess M E)) * 2 ^ excess M E)) by ring.
        rewrite <- pow2_add by lia.
        now replace (- (E + excess M E) + excess M E) with (- E) by lia. }
      assert (M2 / 2 ^ (- (E + excess M E)) <= 500).
      { apply Z.div_le_upper_bound; [exact Hp1 | lia]. }
      lia.
Qed.

End Binary64.

(** ** Timestamps *)

Section WholeSeconds.

Lemma to_timestamp_eq (ms : Z) :
  to_timestamp ms =
  (total_seconds <- whole_seconds ms ;;
   Ok (format_zero 2 (total_seconds / 3600) ++ COLON
       ++ format_zero 2 ((total_seconds mod 3600) / 60) ++ COLON
       ++ format_zero 2 (total_seconds mod 60) ++ COMMA
       ++ format_zero 3 (ms mod 1000))).
Proof.
  unfold to_timestamp, whole_seconds.
  destruct (PyTimedelta.of_milliseconds ms) as [t|]; [|reflexivity]. cbn [bind].
  destruct (PyTimedelta.total_seconds t) as [x|]; reflexivity.
Qed.

Lemma of_milliseconds_in_range (ms : Z) :
  0 <= ms < TIMEDELTA_LIMIT_MS ->
  exists t, PyTimedelta.of_milliseconds ms = Ok t
            /\ (PyTimedelta.days t * 86400 + PyTimedelta.seconds t) * 1000000
               + PyTimedelta.microseconds t = ms * 1000.
Proof.
  unfold TIMEDELTA_LIMIT_MS, PyTimedelta.of_milliseconds, PyTimedelta.MAX_DELTA_DAYS.
  intros H.
  assert (H1 : 0 <= ms * 1000 / 1000000 < 86400000000000).
  { split; [apply Z.div_pos; lia|]. apply Z.div_lt_upper_bound; lia. }
  assert (H2 : 0 <= ms * 1000 / 1000000 / 86400 < 1000000000).
  { split; [apply Z.div_pos; lia|]. apply Z.div_lt_upper_bound; lia. }
  assert (Hd : (999999999 <? Z.abs (ms * 1000 / 1000000 / 86400)) = false).
  { apply Z.ltb_ge. lia. }
  rewrite Hd. eexists. split; [reflexivity|].
  cbn [PyTimedelta.days PyTimedelta.seconds PyTimedelta.microseconds].
  pose proof (Z.div_mod (ms * 1000) 1000000).
  pose proof (Z.div_mod (ms * 1000 / 1000000) 86400). lia.
Qed.

Lemma of_milliseconds_overflow (ms : Z) :
  TIMEDELTA_LIMIT_MS <= ms -> PyTimedelta.of_milliseconds ms = Raise OverflowError.
Proof.
  unfold TIMEDELTA_LIMIT_MS, PyTimedelta.of_milliseconds, PyTimedelta.MAX_DELTA_DAYS.
  intros H.
  assert (H1 : 86400000000000 <= ms * 1000 / 1000000).
  { apply Z.div_le_lower_bound; lia. }
  assert (H2 : 1000000000 <= ms * 1000 / 1000000 / 86400).
  { apply Z.div_le_lower_bound; lia. }
  assert (Hd : (999999999 <? Z.abs (ms * 1000 / 1000000 / 86400)) = true).
  { apply Z.ltb_lt. lia. }
  now rewrite Hd.
Qed.

(** The quotient and the exponent the division core hands to the
    rounding step, for a dividend below 2^73 and the divisor 10^6. *)
Lemma div_core_million (U : Z) :
  0 < U < 2 ^ 73 ->
  let s := 73 - Zdigits2 U in
  0 <= s
  /\ SFdiv_core_binary prec emax U 0 1000000 0
     = (U * 2 ^ s / 1000000, - s, new_location 1000000 (U * 2 ^ s mod 1000000)).
Proof.
  intros HU s.
  destruct (Zdigits2_bounds U) as [Hd1 _]; [lia|].
  assert (Hd : Zdigits2 U <= 73) by (apply Zdigits2_le; lia).
  split; [subst s; lia|].
  unfold SFdiv_core_binary. rewrite fexp_eq.
  change (Zdigits2 1000000) with 20.
  replace (Z.min (Z.max (Zdigits2 U + 0 - (20 + 0) - 53) (-1074)) (0 - 0))
    with (- s) by (subst s; lia).
  replace (0 - 0 - - s) with s by lia.
  assert (Hm : match s with
               | Z0 => U
               | Zpos _ => Z.shiftl U s
               | Zneg _ => 0
               end = U * 2 ^ s).
  { assert (Hs : 0 <= s) by (subst s; lia).
    destruct s as [|p|p]; [rewrite Z.pow_0_r; lia | | lia].
    apply Z.shiftl_mul_pow2. lia. }
  rewrite Hm. unfold Z.div, Z.modulo.
  now destruct (Z.div_eucl (U * 2 ^ s) 1000000).
Qed.

Lemma int_true_divide_pos (U : Z) :
  0 < U ->
  int_true_divide U 1000000 =
  match
    (let '(mz, ez, lz) := SFdiv_core_binary prec emax U 0 1000000 0 in
     binary_round_aux prec emax false mz ez lz)
  with
  | S754_infinity _ => Raise OverflowError
  | q => Ok q
  end.
Proof. intros H. destruct U as [|u|u]; [lia | reflexivity | lia]. Qed.

(** [U / 10^6] as a float, then truncated: [M2 / 2^t] for a scaled
    mantissa [M2] that is the scaled quotient, or one more when the
    scaled remainder is at least half the divisor. *)
Lemma seconds_of_microseconds (U : Z) :
  0 < U < 2 ^ 67 ->
  exists (x : float) (t M2 : Z),
    int_true_divide U 1000000 = Ok x
    /\ int_of_float x = Ok (M2 / 2 ^ t)
    /\ 0 <= t
    /\ (forall j, 0 <= j <= 53 -> U < 2 ^ (53 - j) * 1000000 -> j <= t)
    /\ U * 2 ^ t / 1000000 <= M2 <= U * 2 ^ t / 1000000 + 1
    /\ (M2 = U * 2 ^ t / 1000000 + 1 -> 1000000 <= 2 * (U * 2 ^ t mod 1000000)).
Proof.
  intros HU.
  destruct (div_core_million U) as [Hs Hcore]; [lia|].
  set (s := 73 - Zdigits2 U) in *.
  destruct (Zdigits2_bounds U) as [Hd1 [HUlo HUhi]]; [lia|].
  assert (Hd : Zdigits2 U <= 67) by (apply Zdigits2_le; lia).
  assert (Hs6 : 6 <= s <= 72) by (subst s; lia).
  assert (Hps : 0 < 2 ^ s) by (apply pow2_gt0; lia).
  set (q := U * 2 ^ s / 1000000) in *.
  set (l := new_location 1000000 (U * 2 ^ s mod 1000000)) in *.
  (* the scaled dividend has exactly 73 bits *)
  assert (HN : 2 ^ 72 <= U * 2 ^ s < 2 ^ 73).
  { replace 72 with ((Zdigits2 U - 1) + s) by (subst s; lia).
    replace 73 with (Zdigits2 U + s) by (subst s; lia).
    rewrite !pow2_add by lia. nia. }
  assert (Hq : 2 ^ 52 <= q < 2 ^ 54).
  { subst q. split.
    - apply Z.div_le_lower_bound; lia.
    - apply Z.div_lt_upper_bound; lia. }
  assert (Hq0 : 0 < q) by lia.
  assert (Hdq : 53 <= Zdigits2 q <= 54).
  { split; [apply (Zdigits2_ge q 52); lia | apply Zdigits2_le; lia]. }
  assert (Hx : excess q (- s) = Zdigits2 q - 53) by (rewrite excess_eq; lia).
  assert (He : - s + excess q (- s) <= 0) by lia.
  destruct (int_of_rounded false q (- s) l Hq0 He) as [Hfin Hint].
  pose proof (rounded_mantissa_bounds q (- s) l ltac:(lia)) as Hb.
  set (r := binary_round_aux prec emax false q (- s) l) in *.
  set (t := s - excess q (- s)).
  set (M2 := rounded_mantissa q (- s) l) in *.
  exists r, t, M2.
  assert (Ht : 0 <= t) by (subst t; lia).
  assert (Hpx : 0 < 2 ^ excess q (- s)) by (apply pow2_gt0; lia).
  assert (Hpt : 0 < 2 ^ t) by (apply pow2_gt0; lia).
  assert (Hsplit : U * 2 ^ s = U * 2 ^ t * 2 ^ excess q (- s)).
  { rewrite <- Z.mul_assoc, <- pow2_add by lia. do 2 f_equal. subst t. lia. }
  (* the mantissa after the first shift is the quotient scaled by 2^t *)
  assert (HM1 : q / 2 ^ excess q (- s) = U * 2 ^ t / 1000000).
  { unfold q at 1. rewrite Z.div_div by lia. rewrite Hsplit.
    now rewrite Z.div_mul_cancel_r by lia. }
  split; [|split; [|split; [|split; [|split]]]].
  - rewrite int_true_divide_pos by lia.
    rewrite Hcore. fold q l r. now destruct r.
  - rewrite Hint. cbn [cond_Zopp]. do 3 f_equal. subst t. lia.
  - exact Ht.
  - intros j Hj Hsmall.
    assert (Hd' : Zdigits2 U <= 73 - j).
    { apply Zdigits2_le; try lia.
      apply Z.lt_le_trans with (1 := Hsmall).
      replace (73 - j) with ((53 - j) + 20) by lia. rewrite pow2_add by lia.
      assert (0 < 2 ^ (53 - j)) by (apply pow2_gt0; lia). lia. }
    assert (Hq' : q < 2 ^ (53 - j + s)).
    { subst q. apply Z.div_lt_upper_bound; [lia|].
      rewrite pow2_add by lia. nia. }
    assert (Zdigits2 q <= 53 - j + s) by (apply Zdigits2_le; lia).
    subst t s. lia.
  - rewrite <- HM1. exact Hb.
  - rewrite <- HM1. intros Hup.
    destruct (Z.eq_dec (excess q (- s)) 0) as [Hx0 | Hx1].
    + (* no shift: the location of the remainder decides *)
      assert (Et : t = s) by (subst t; lia). rewrite Et.
      rewrite Hx0, Z.pow_0_r, Z.div_1_r in Hup.
      unfold M2 in Hup. rewrite rounded_mantissa_unshifted in Hup by exact Hx0.
      unfold l, new_location in Hup. change (Z.even 1000000) with true in Hup.
      cbv iota in Hup. unfold new_location_even in Hup.
      destruct (U * 2 ^ s mod 1000000 =? 0); cbn [round_nearest_even] in Hup; [lia|].
      destruct (Z.compare_spec (2 * (U * 2 ^ s mod 1000000)) 1000000) as [Hc|Hc|Hc];
        cbn [round_nearest_even] in Hup; lia.
    + (* one bit shifted out: it was set, so the quotient is odd *)
      assert (Hx1' : excess q (- s) = 1) by lia.
      assert (Hodd : Z.odd q = true).
      { apply (rounded_mantissa_shifted_once q (- s) l Hq0 Hx1').
        fold M2. rewrite Hup, Hx1'. reflexivity. }
      rewrite Hx1' in *. change (2 ^ 1) with 2 in *.
      apply Z.odd_spec in Hodd as [h Hh].
      set (V := U * 2 ^ t) in *.
      assert (HqV : q = 2 * V / 1000000) by (unfold q; rewrite Hsplit; f_equal; lia).
      clearbody q V. clear - HqV Hh HM1.
      Z.div_mod_to_equations. lia.
Qed.

Lemma scaled_div_bounds (U D P M2 : Z) :
  0 <= U -> 0 < D -> 0 < P ->
  U * P / D <= M2 <= U * P / D + 1 ->
  U / D <= M2 / P <= U / D + 1.
Proof.
  intros HU HD HP HM.
  pose proof (Z.div_mod U D ltac:(lia)) as E1.
  pose proof (Z.mod_pos_bound U D HD) as B1.
  pose proof (Z.div_mod (U * P) D ltac:(lia)) as E2.
  pose proof (Z.mod_pos_bound (U * P) D HD) as B2.
  set (k := U / D) in *. set (M1 := U * P / D) in *.
  assert (Hlo : k * P <= M1) by nia.
  assert (Hhi : M1 < (k + 1) * P) by nia.
  split.
  - apply Z.div_le_lower_bound; [exact HP | nia].
  - apply Z.div_le_upper_bound; [exact HP | nia].
Qed.

Lemma scaled_div_exact (ms P M2 : Z) :
  0 <= ms -> 1024 <= P ->
  ms * 1000 * P / 1000000 <= M2 <= ms * 1000 * P / 1000000 + 1 ->
  M2 / P = ms / 1000.
Proof.
  intros Hms HP HM.
  pose proof (Z.div_mod ms 1000 ltac:(lia)) as E1.
  pose proof (Z.mod_pos_bound ms 1000 ltac:(lia)) as B1.
  pose proof (Z.div_mod (ms * 1000 * P) 1000000 ltac:(lia)) as E2.
  pose proof (Z.mod_pos_bound (ms * 1000 * P) 1000000 ltac:(lia)) as B2.
  set (k := ms / 1000) in *. set (M1 := ms * 1000 * P / 1000000) in *.
  assert (Hlo : k * P <= M1) by nia.
  assert (Hhi : M1 + 1 < (k + 1) * P) by nia.
  assert (k <= M2 / P) by (apply Z.div_le_lower_bound; nia).
  assert (M2 / P < k + 1) by (apply Z.div_lt_upper_bound; nia).
  lia.
Qed.

(** With nine scaling bits, and with eight when the milliseconds stop
    short of 999, rounding up still cannot reach the next second. *)
Lemma scaled_div_exact_512 (ms M2 : Z) :
  0 <= ms ->
  ms * 1000 * 512 / 1000000 <= M2 <= ms * 1000 * 512 / 1000000 + 1 ->
  (M2 = ms * 1000 * 512 / 1000000 + 1 ->
   1000000 <= 2 * (ms * 1000 * 512 mod 1000000)) ->
  M2 / 512 = ms / 1000.
Proof. intros Hms HM Hup. Z.div_mod_to_equations. lia. Qed.

Lemma scaled_div_exact_256 (ms M2 : Z) :
  0 <= ms -> ms mod 1000 <= 998 ->
  ms * 1000 * 256 / 1000000 <= M2 <= ms * 1000 * 256 / 1000000 + 1 ->
  (M2 = ms * 1000 * 256 / 1000000 + 1 ->
   1000000 <= 2 * (ms * 1000 * 256 mod 1000000)) ->
  M2 / 256 = ms / 1000.
Proof. intros Hms Hf HM Hup. Z.div_mod_to_equations. lia. Qed.

Lemma whole_seconds_zero : whole_seconds 0 = Ok 0.
Proof. reflexivity. Qed.

(** Within the range of [timedelta] the whole seconds exist, and are the
    quotient by 1000 or one more. *)
Lemma whole_seconds_in_range (ms : Z) :
  0 <= ms < TIMEDELTA_LIMIT_MS ->
  exists ts, whole_seconds ms = Ok ts /\ ms / 1000 <= ts <= ms / 1000 + 1.
Proof.
  intros H. destruct (Z.eq_dec ms 0) as [-> | Hnz].
  { exists 0. split; [reflexivity | cbn; lia]. }
  destruct (of_milliseconds_in_range ms H) as (t & Ht & Hus).
  unfold whole_seconds. rewrite Ht. cbn [bind].
  unfold PyTimedelta.total_seconds. rewrite Hus.
  unfold TIMEDELTA_LIMIT_MS in H.
  destruct (seconds_of_microseconds (ms * 1000))
    as (x & k & M2 & Hx & Hi & Hk & _ & Hb & _); [lia|].
  rewrite Hx. cbn [bind]. rewrite Hi. eexists. split; [reflexivity|].
  assert (Hp : 0 < 2 ^ k) by (apply pow2_gt0; lia).
  replace (ms / 1000) with (ms * 1000 / 1000000).
  - apply scaled_div_bounds; try lia.
  - change 1000000 with (1000 * 1000). now rewrite Z.div_mul_cancel_r by lia.
Qed.

(** Up to 2^44 seconds and 998 milliseconds the float quotient loses
    nothing that the truncation keeps. *)
Lemma whole_seconds_exact (ms : Z) :
  0 <= ms < EXACT_LIMIT_MS -> whole_seconds ms = Ok (ms / 1000).
Proof.
  unfold EXACT_LIMIT_MS.
  intros H. destruct (Z.eq_dec ms 0) as [-> | Hnz]; [reflexivity|].
  destruct (of_milliseconds_in_range ms) as (t & Ht & Hus);
    [unfold TIMEDELTA_LIMIT_MS; lia|].
  unfold whole_seconds. rewrite Ht. cbn [bind].
  unfold PyTimedelta.total_seconds. rewrite Hus.
  destruct (seconds_of_microseconds (ms * 1000))
    as (x & k & M2 & Hx & Hi & Hk & Hkj & Hb & Hup); [lia|].
  rewrite Hx. cbn [bind]. rewrite Hi. f_equal.
  assert (H8 : 8 <= k) by (apply (Hkj 8); lia).
  assert (H9 : ms < 2 ^ 44 * 1000 -> 9 <= k) by (intros; apply (Hkj 9); lia).
  destruct (Z.le_gt_cases 10 k) as [H10 | Hlt].
  - assert (Hp : 2 ^ 10 <= 2 ^ k) by (apply pow2_le; lia).
    apply scaled_div_exact; try lia.
  - destruct (Z.eq_dec k 9) as [-> | Hne].
    + change (2 ^ 9) with 512 in *. now apply scaled_div_exact_512.
    + assert (k = 8) by lia. subst k. change (2 ^ 8) with 256 in *.
      apply scaled_div_exact_256; try assumption; try lia.
      assert (2 ^ 44 * 1000 <= ms) by lia.
      Z.div_mod_to_equations. lia.
Qed.

End WholeSeconds.

(** ** Formatting *)

Section Formatting.

Lemma format_zero_nonneg (width : nat) (i : Z) :
  0 <= i -> format_zero width i = zfill width (str_of_int i).
Proof.
  intros H. unfold format_zero, str_of_int.
  destruct i as [|p|p]; [reflexivity | reflexivity | lia].
Qed.

Lemma no_lf_app (a b : str) : no_lf (a ++ b) = no_lf a && no_lf b.
Proof. apply forallb_app. Qed.

Lemma no_lf_cons (c : char) (s : str) :
  no_lf (c :: s) = negb (c =? LF)%N && no_lf s.
Proof. reflexivity. Qed.

Create Rewrite HintDb no_lf.
#[local] Hint Rewrite no_lf_app no_lf_cons : no_lf.

Lemma no_lf_uint (u : Decimal.uint) : no_lf (str_of_uint u) = true.
Proof. induction u; simpl; auto. Qed.

Lemma no_lf_repeat_zero (n : nat) : no_lf (repeat ZERO n) = true.
Proof. induction n; simpl; auto. Qed.

Lemma no_lf_str_of_int (i : Z) : no_lf (str_of_int i) = true.
Proof.
  unfold str_of_int. destruct (Z.to_int i); simpl; apply no_lf_uint.
Qed.

Lemma no_lf_format_zero (width : nat) (i : Z) : no_lf (format_zero width i) = true.
Proof.
  unfold format_zero, zfill.
  destruct (Z.to_int i); simpl; rewrite no_lf_app, no_lf_repeat_zero, no_lf_uint;
    reflexivity.
Qed.

#[local] Hint Rewrite no_lf_format_zero no_lf_str_of_int : no_lf.

Lemma uint_head (u : Decimal.uint) :
  u <> Decimal.Nil ->
  exists c r, str_of_uint u = c :: r /\ is_space c = false.
Proof.
  destruct u; intros H; try contradiction; simpl; eauto.
Qed.

(** [str(i)] is never empty and starts with a digit or a minus sign. *)
Lemma str_of_int_head (i : Z) :
  exists c r, str_of_int i = c :: r /\ is_space c = false.
Proof.
  unfold str_of_int. destruct i as [|p|p]; cbn [Z.to_int].
  - simpl. eauto.
  - apply uint_head, DecimalPos.Unsigned.to_uint_nonnil.
  - exists MINUS. eexists. split; reflexivity.
Qed.

Lemma to_timestamp_no_lf (ms : Z) (a : str) :
  to_timestamp ms = Ok a -> no_lf a = true.
Proof.
  rewrite to_timestamp_eq. destruct (whole_seconds ms) as [ts|]; [|discriminate].
  cbn [bind]. intros H. injection H as <-.
  autorewrite with no_lf. reflexivity.
Qed.

Lemma interval_line_no_lf (iv : Z * Z) (line : str) :
  interval_line iv = Ok line -> no_lf line = true /\ line <> [].
Proof.
  unfold interval_line.
  destruct (to_timestamp (fst iv)) as [a|] eqn:Ea; [|discriminate]. cbn [bind].
  destruct (to_timestamp (snd iv)) as [b|] eqn:Eb; [|discriminate]. cbn [bind].
  intros H. injection H as <-. split.
  - autorewrite with no_lf.
    rewrite (to_timestamp_no_lf _ _ Ea), (to_timestamp_no_lf _ _ Eb).
    reflexivity.
  - destruct a; discriminate.
Qed.

End Formatting.

Lemma to_timestamp_overflow (ms : Z) :
  TIMEDELTA_LIMIT_MS <= ms -> to_timestamp ms = Raise OverflowError.
Proof.
  intros H. unfold to_timestamp.
  now rewrite (of_milliseconds_overflow ms H).
Qed.

(** C5, as the code has it. For a millisecond count [ms] from 0 up to,
    not including, 2^44 seconds and 999 milliseconds
    (17592186044416999), [to_timestamp] returns HH:MM:SS,mmm with
    hours [ms div 3600000], minutes [(ms div 60000) mod 60] and seconds
    [(ms div 1000) mod 60], each in decimal, padded with zeros to at
    least two digits, and the remainder [ms mod 1000] padded to three. *)
Theorem to_timestamp_fields (ms : Z) :
  0 <= ms < EXACT_LIMIT_MS ->
  to_timestamp ms =
  Ok (zfill 2 (str_of_int (ms / 3600000)) ++ COLON
      ++ zfill 2 (str_of_int (ms / 60000 mod 60)) ++ COLON
      ++ zfill 2 (str_of_int (ms / 1000 mod 60)) ++ COMMA
      ++ zfill 3 (str_of_int (ms mod 1000))).
Proof.
  intros H. rewrite to_timestamp_eq, (whole_seconds_exact ms H). cbn [bind].
  assert (Hs : 0 <= ms / 1000) by (apply Z.div_pos; lia).
  rewrite !format_zero_nonneg.
  - do 2 f_equal; [|do 2 f_equal].
    + do 2 f_equal. change 3600000 with (1000 * 3600).
      now rewrite Z.div_div by lia.
    + do 2 f_equal. change 60000 with (1000 * 60). rewrite <- Z.div_div by lia.
      generalize (ms / 1000). intros ts. Z.div_mod_to_equations. lia.
  - apply Z.mod_pos_bound; lia.
  - apply Z.mod_pos_bound; lia.
  - apply Z.div_pos; [apply Z.mod_pos_bound|]; lia.
  - apply Z.div_pos; lia.
Qed.

Lemma to_timestamp_fields_witness :
  0 <= 3725007 < EXACT_LIMIT_MS
  /\ to_timestamp 3725007 = Ok (py "01:02:05,007").
Proof.
  assert (H : 0 <= 3725007 < EXACT_LIMIT_MS) by (split; [discriminate | reflexivity]).
  split; [exact H|]. exact (to_timestamp_fields 3725007 H).
Defined.

(** C5 as stated fails: the hours do not grow without bound. At 10^9
    days [timedelta] overflows and [to_timestamp] raises. *)
Lemma to_timestamp_overflows_at_limit :
  0 <= TIMEDELTA_LIMIT_MS
  /\ to_timestamp TIMEDELTA_LIMIT_MS = Raise OverflowError.
Proof. split; [discriminate | reflexivity]. Qed.

(** Between the two limits the whole seconds come out of a float
    quotient; at [EXACT_LIMIT_MS] itself, 4886718345:40:16,999 by the
    fields, the seconds are rounded up to 17. *)
Lemma to_timestamp_first_inexact :
  (EXACT_LIMIT_MS / 1000) mod 60 = 16
  /\ to_timestamp EXACT_LIMIT_MS = Ok (py "4886718345:40:17,999").
Proof. split; reflexivity. Qed.

Section Renderer.

Lemma block_lines_cons (b : list str) (blocks : list (list str)) :
  block_lines (b :: blocks) = b ++ [] :: block_lines blocks.
Proof. unfold block_lines. simpl. now rewrite <- app_assoc. Qed.

(** The loop appends, to the lines it starts with, the blocks of the
    remaining chunks at the intervals [cue_intervals] lists; it raises
    what the first failing timestamp raises. *)
Lemma srt_loop_eq (dur_ms gap_ms : Z) (chunks : list str) :
  forall (i : Z) (srt_lines : list str) (curr_ms : Z),
    srt_loop dur_ms gap_ms i chunks srt_lines curr_ms =
    (lines <- interval_lines (cue_intervals (List.length chunks) dur_ms gap_ms curr_ms) ;;
     Ok (srt_lines ++ block_lines (numbered_blocks i lines chunks))).
Proof.
  induction chunks as [|text rest IH]; intros i srt_lines curr_ms.
  - simpl. now rewrite app_nil_r.
  - cbn [srt_loop List.length cue_intervals interval_lines].
    unfold interval_line. cbn [fst snd].
    destruct (to_timestamp curr_ms) as [a|]; [|reflexivity]. cbn [bind].
    destruct (to_timestamp (curr_ms + dur_ms)) as [b|]; [|reflexivity]. cbn [bind].
    rewrite IH.
    destruct (interval_lines _) as [lines|]; [|reflexivity]. cbn [bind numbered_blocks].
    rewrite block_lines_cons. rewrite <- app_assoc. reflexivity.
Qed.

Lemma generate_srt_eq (chunks : list str) (d : float) (gap_ms start_ms : Z) :
  generate_srt chunks d gap_ms start_ms =
  (dur_ms <- effective_duration d ;;
   srt_document (cue_intervals (List.length chunks) dur_ms
                   (Z.max 0 gap_ms) (Z.max 0 start_ms)) chunks).
Proof.
  unfold generate_srt, srt_document.
  destruct (effective_duration d) as [dur|]; [|reflexivity]. cbn [bind].
  rewrite srt_loop_eq. now destruct (interval_lines _).
Qed.

Lemma effective_duration_cases (d : float) :
  match float_mul d thousand with
  | S754_nan => effective_duration d = Raise ValueError
  | S754_infinity _ => effective_duration d = Raise OverflowError
  | _ => exists dur, effective_duration d = Ok dur /\ 500 <= dur
  end.
Proof.
  unfold effective_duration.
  destruct (float_mul d thousand); cbn [int_of_float bind]; try reflexivity;
    eexists; (split; [reflexivity | lia]).
Qed.

Lemma effective_duration_finite (d : float) :
  is_finite (float_mul d thousand) = true ->
  exists dur, effective_duration d = Ok dur /\ 500 <= dur.
Proof.
  intros H. pose proof (effective_duration_cases d) as C.
  destruct (float_mul d thousand); try discriminate H; exact C.
Qed.

Lemma effective_duration_min (d : float) (dur : Z) :
  effective_duration d = Ok dur -> 500 <= dur.
Proof.
  intros H. pose proof (effective_duration_cases d) as C.
  destruct (float_mul d thousand); try congruence;
    destruct C as (dur' & E & Hd); congruence.
Qed.

End Renderer.

(** ** The intervals of the cues *)

Section Intervals.

Variables dur gap : Z.

Lemma cue_intervals_length (n : nat) (curr : Z) :
  List.length (cue_intervals n dur gap curr) = n.
Proof. revert curr. induction n; intros; simpl; auto. Qed.

Lemma cue_intervals_duration (n : nat) (curr : Z) :
  Forall (fun iv => snd iv = fst iv + dur) (cue_intervals n dur gap curr).
Proof.
  revert curr. induction n as [|n IH]; intros curr; simpl; constructor; auto.
Qed.

(** An interval of the list and the one after it. *)
Lemma cue_intervals_nth (n : nat) :
  forall (i : nat) (curr s e : Z),
    nth_error (cue_intervals n dur gap curr) i = Some (s, e) ->
    e = s + dur
    /\ forall s' e',
         nth_error (cue_intervals n dur gap curr) (S i) = Some (s', e') ->
         s' = e + gap.
Proof.
  induction n as [|n IH]; intros i curr s e H.
  - destruct i; discriminate.
  - destruct i as [|i]; cbn [cue_intervals nth_error] in *.
    + injection H as <- <-. split; [reflexivity|].
      intros s' e' H'. destruct n; [discriminate|].
      cbn [cue_intervals nth_error] in H'. now injection H' as <- _.
    + exact (IH i _ s e H).
Qed.

(** From here on the duration and the gap are not negative, as after
    the clamping of [generate_srt]. *)
Hypothesis dur_nonneg : 0 <= dur.
Hypothesis gap_nonneg : 0 <= gap.

Lemma cue_intervals_start (n : nat) :
  forall curr, Forall (fun iv => curr <= fst iv) (cue_intervals n dur gap curr).
Proof.
  induction n as [|n IH]; intros curr; simpl; constructor.
  - simpl. lia.
  - eapply Forall_impl; [|apply IH]. simpl. intros iv. lia.
Qed.

(** Any later interval starts at least the gap after an earlier one
    ends. *)
Lemma cue_intervals_apart (n : nat) :
  forall (curr : Z) (i j : nat) (s e s' e' : Z),
    (i < j)%nat ->
    nth_error (cue_intervals n dur gap curr) i = Some (s, e) ->
    nth_error (cue_intervals n dur gap curr) j = Some (s', e') ->
    e + gap <= s'.
Proof.
  induction n as [|n IH]; intros curr i j s e s' e' Hij Hi Hj.
  - destruct i; discriminate.
  - destruct j as [|j]; [lia|]. cbn [cue_intervals nth_error] in Hj.
    destruct i as [|i]; cbn [cue_intervals nth_error] in Hi.
    + injection Hi as <- <-.
      pose proof (cue_intervals_start n (curr + dur + gap)) as Hall.
      rewrite Forall_forall in Hall.
      apply nth_error_In in Hj. specialize (Hall _ Hj). cbn [fst] in Hall. lia.
    + apply (IH (curr + dur + gap) i j s e s' e'); [lia | exact Hi | exact Hj].
Qed.

Lemma cue_intervals_ordered (n : nat) :
  forall curr,
    0 <= curr ->
    Forall (fun iv => 0 <= fst iv <= snd iv) (cue_intervals n dur gap curr).
Proof.
  induction n as [|n IH]; intros curr Hc; cbn [cue_intervals].
  - constructor.
  - constructor; [cbn [fst snd]; lia | apply IH; lia].
Qed.

Lemma cue_intervals_in_range (n : nat) :
  forall curr,
    0 <= curr ->
    forallb (fun iv => snd iv <? TIMEDELTA_LIMIT_MS) (cue_intervals n dur gap curr) = true ->
    Forall (fun iv => 0 <= fst iv <= snd iv /\ snd iv < TIMEDELTA_LIMIT_MS)
      (cue_intervals n dur gap curr).
Proof.
  induction n as [|n IH]; intros curr Hc H; cbn [cue_intervals] in *.
  - constructor.
  - cbn [forallb snd] in H. apply andb_true_iff in H as [H1 H2].
    apply Z.ltb_lt in H1. constructor.
    + cbn [fst snd]. lia.
    + apply IH; [lia | exact H2].
Qed.

End Intervals.


(** C1, as the code has it. [generate_srt] takes as effective cue
    duration [max(500, int(duration_sec * 1000))]: the float product is
    truncated toward zero, not rounded, before the 500 ms floor; a NaN
    or infinite product raises. Every cue's interval has that length. *)
Theorem duration_is_truncated (chunks : list str) (d : float) (gap_ms start_ms : Z) :
  generate_srt chunks d gap_ms start_ms =
  (ms <- int_of_float (float_mul d thousand) ;;
   srt_document (cue_intervals (List.length chunks) (Z.max 500 ms)
                   (Z.max 0 gap_ms) (Z.max 0 start_ms)) chunks)
  /\ forall ms gap curr : Z,
       Forall (fun iv => snd iv = fst iv + Z.max 500 ms)
         (cue_intervals (List.length chunks) (Z.max 500 ms) gap curr).
Proof.
  split.
  - rewrite generate_srt_eq. unfold effective_duration.
    now destruct (int_of_float (float_mul d thousand)).
  - intros. apply cue_intervals_duration.
Qed.

(** C1 as stated fails: for 0.9999 seconds the product is 999.9, which
    rounds to 1000 but is truncated to 999, and the cue ends at
    00:00:00,999. *)
Lemma duration_is_not_rounded :
  effective_duration f0_9999 = Ok 999
  /\ rounded_duration f0_9999 = Ok 1000
  /\ generate_srt [py "a"] f0_9999 0 0
     = Ok (join LF [py "1"; py "00:00:00,000 --> 00:00:00,999"; py "a"; []])
  /\ generate_srt [py "a"] f0_9999 0 0
     <> (dur_ms <- rounded_duration f0_9999 ;;
         srt_document (cue_intervals 1 dur_ms 0 0) [py "a"]).
Proof.
  repeat split; try reflexivity. vm_compute. discriminate.
Qed.

(** C9, as the code has it. With no cues, any gap and start, and a
    duration whose product with 1000 is finite, [generate_srt] returns
    the one-character string LF. *)
Theorem empty_cues_single_newline (d : float) (gap_ms start_ms : Z) :
  is_finite (float_mul d thousand) = true ->
  generate_srt [] d gap_ms start_ms = Ok [LF].
Proof.
  intros H. destruct (effective_duration_finite d H) as (dur & E & _).
  rewrite generate_srt_eq, E. reflexivity.
Qed.

Lemma empty_cues_single_newline_witness :
  is_finite (float_mul two_and_a_half thousand) = true
  /\ generate_srt [] two_and_a_half 200 0 = Ok [LF].
Proof.
  split; [reflexivity|]. apply empty_cues_single_newline. reflexivity.
Defined.

(** C9 as stated fails: the duration is converted before the cues are
    looked at, and for 2^1023 seconds the product overflows to infinity,
    which [int] refuses. *)
Lemma empty_cues_huge_duration_raises :
  is_binary64 huge = true
  /\ generate_srt [] huge 200 0 = Raise OverflowError
  /\ generate_srt [] huge 200 0 <> Ok [LF].
Proof. repeat split; try reflexivity. discriminate. Qed.

(** C8, as the code has it. For a binary64 duration below 0.5 whose
    product with 1000 is finite, [generate_srt] returns what it returns
    for 0.5, whatever the cues, gap and start. *)
Theorem short_duration_is_half_second (chunks : list str) (d : float)
    (gap_ms start_ms : Z) :
  is_binary64 d = true -> float_ltb d half = true ->
  is_finite (float_mul d thousand) = true ->
  generate_srt chunks d gap_ms start_ms = generate_srt chunks half gap_ms start_ms.
Proof.
  intros Hv Hlt Hfin. rewrite !generate_srt_eq.
  rewrite (effective_duration_below_half d Hv Hlt Hfin). reflexivity.
Qed.

Lemma short_duration_is_half_second_witness :
  is_binary64 quarter = true /\ float_ltb quarter half = true
  /\ is_finite (float_mul quarter thousand) = true
  /\ generate_srt [py "Hi there"] quarter 200 0
     = generate_srt [py "Hi there"] half 200 0.
Proof.
  split; [reflexivity|]. split; [reflexivity|]. split; [reflexivity|].
  apply short_duration_is_half_second; reflexivity.
Defined.

(** C8 as stated fails: -2^1023 is below 0.5, its product with 1000
    overflows to minus infinity, and [int] raises where the call with
    0.5 returns a document. *)
Lemma short_duration_overflow_differs :
  is_binary64 minus_huge = true /\ float_ltb minus_huge half = true
  /\ generate_srt [py "a"] minus_huge 0 0 = Raise OverflowError
  /\ generate_srt [py "a"] minus_huge 0 0 <> generate_srt [py "a"] half 0 0.
Proof. repeat split; try reflexivity. vm_compute. discriminate. Qed.

Section RendererTotal.

Lemma to_timestamp_total (ms : Z) :
  0 <= ms < TIMEDELTA_LIMIT_MS -> exists a, to_timestamp ms = Ok a.
Proof.
  intros H. destruct (whole_seconds_in_range ms H) as (ts & E & _).
  rewrite to_timestamp_eq, E. cbn [bind]. eauto.
Qed.

Lemma interval_lines_total (ivs : list (Z * Z)) :
  Forall (fun iv => 0 <= fst iv <= snd iv /\ snd iv < TIMEDELTA_LIMIT_MS) ivs ->
  exists lines, interval_lines ivs = Ok lines.
Proof.
  induction 1 as [|iv ivs [H1 H2] _ [lines IH]]; cbn [interval_lines].
  - eauto.
  - unfold interval_line.
    destruct (to_timestamp_total (fst iv)) as [a ->]; [lia|].
    destruct (to_timestamp_total (snd iv)) as [b ->]; [lia|].
    cbn [bind]. rewrite IH. cbn [bind]. eauto.
Qed.

(** Past the range the first timestamp that does not fit raises. *)
Lemma interval_lines_overflow (ivs : list (Z * Z)) :
  Forall (fun iv => 0 <= fst iv <= snd iv) ivs ->
  existsb (fun iv => TIMEDELTA_LIMIT_MS <=? snd iv) ivs = true ->
  interval_lines ivs = Raise OverflowError.
Proof.
  induction 1 as [|iv ivs Hiv _ IH]; cbn [existsb interval_lines]; [discriminate|].
  intros H. unfold interval_line.
  destruct (Z.leb_spec TIMEDELTA_LIMIT_MS (snd iv)) as [Hs | Hs].
  - destruct (Z.le_gt_cases TIMEDELTA_LIMIT_MS (fst iv)) as [Hf | Hf].
    + now rewrite (to_timestamp_overflow _ Hf).
    + destruct (to_timestamp_total (fst iv)) as [a ->]; [lia|]. cbn [bind].
      now rewrite (to_timestamp_overflow _ Hs).
  - destruct (to_timestamp_total (fst iv)) as [a ->]; [lia|].
    destruct (to_timestamp_total (snd iv)) as [b ->]; [lia|]. cbn [bind].
    cbn [orb] in H. now rewrite (IH H).
Qed.

(** [generate_srt] raises as soon as one cue ends at or past the limit. *)
Lemma generate_srt_overflow (chunks : list str) (d : float)
    (gap_ms start_ms dur_ms : Z) :
  effective_duration d = Ok dur_ms ->
  existsb (fun iv => TIMEDELTA_LIMIT_MS <=? snd iv)
    (cue_intervals (List.length chunks) dur_ms (Z.max 0 gap_ms) (Z.max 0 start_ms))
  = true ->
  generate_srt chunks d gap_ms start_ms = Raise OverflowError.
Proof.
  intros Hd H. pose proof (effective_duration_min d dur_ms Hd) as Hmin.
  rewrite generate_srt_eq, Hd. cbn [bind]. unfold srt_document.
  rewrite interval_lines_overflow; [reflexivity | | exact H].
  apply cue_intervals_ordered; lia.
Qed.

End RendererTotal.

Section Reparse.

Lemma split_go_piece (p : str) :
  no_lf p = true ->
  forall cur rest, split_go LF cur (p ++ rest) = split_go LF (rev p ++ cur) rest.
Proof.
  induction p as [|c p IH]; intros H cur rest; [reflexivity|].
  rewrite no_lf_cons in H. apply andb_true_iff in H as [Hc Hp].
  apply negb_true_iff in Hc. cbn [app split_go]. rewrite Hc.
  rewrite (IH Hp). cbn [rev]. now rewrite <- app_assoc.
Qed.

Lemma join_cons (p q : str) (rest : list str) :
  join LF (p :: q :: rest) = p ++ LF :: join LF (q :: rest).
Proof. reflexivity. Qed.

(** Splitting the joined lines on LF gives the lines back. *)
Lemma split_join (lines : list str) :
  lines <> [] -> forallb no_lf lines = true ->
  split LF (join LF lines) = lines.
Proof.
  unfold split. induction lines as [|p [|q rest] IH]; intros Hne H.
  - contradiction.
  - cbn [forallb] in H. apply andb_true_iff in H as [Hp _].
    cbn [join]. rewrite <- (app_nil_r p) at 1.
    rewrite (split_go_piece p Hp). cbn [split_go].
    now rewrite app_nil_r, rev_involutive.
  - cbn [forallb] in H. apply andb_true_iff in H as [Hp Hrest].
    rewrite join_cons, (split_go_piece p Hp). cbn [split_go].
    rewrite N.eqb_refl, app_nil_r, rev_involutive. f_equal.
    apply IH; [discriminate | exact Hrest].
Qed.

(** Grouping the lines of numbered blocks gives the blocks back. *)
Lemma group_numbered_blocks (lines : list str) :
  forall (i : Z) (chunks : list str),
    Forall (fun l => l <> []) lines -> Forall (fun c => c <> []) chunks ->
    group_blocks [] (block_lines (numbered_blocks i lines chunks))
    = numbered_blocks i lines chunks.
Proof.
  induction lines as [|line lines IH]; intros i chunks Hl Hc; [reflexivity|].
  destruct chunks as [|text rest]; [reflexivity|].
  inversion Hl as [|? ? Hline Hlines]; subst.
  inversion Hc as [|? ? Htext Hrest]; subst.
  cbn [numbered_blocks]. rewrite block_lines_cons.
  destruct (str_of_int_head i) as (c0 & r0 & E0 & _). rewrite E0.
  destruct line as [|c1 r1]; [contradiction|].
  destruct text as [|c2 r2]; [contradiction|].
  cbn [app group_blocks rev]. f_equal. now apply IH.
Qed.

Lemma no_lf_block_lines (lines : list str) :
  forall (i : Z) (chunks : list str),
    forallb no_lf lines = true -> forallb no_lf chunks = true ->
    forallb no_lf (block_lines (numbered_blocks i lines chunks)) = true.
Proof.
  induction lines as [|line lines IH]; intros i chunks Hl Hc; [reflexivity|].
  destruct chunks as [|text rest]; [reflexivity|].
  cbn [forallb] in Hl, Hc.
  apply andb_true_iff in Hl as [Hline Hlines].
  apply andb_true_iff in Hc as [Htext Hrest].
  cbn [numbered_blocks]. rewrite block_lines_cons. cbn [app forallb].
  rewrite no_lf_str_of_int, Hline, Htext. cbn [andb no_lf forallb].
  now apply IH.
Qed.

Lemma join_block (x y z : str) (more : list str) :
  join LF ([x; y; z] ++ [] :: more)
  = x ++ LF :: y ++ LF :: z ++ LF
      :: match more with [] => [] | _ => LF :: join LF more end.
Proof. destruct more; reflexivity. Qed.

Ltac list_eq :=
  repeat (rewrite <- app_assoc || rewrite <- app_comm_cons); reflexivity.

(** The joined lines of a non-empty document start outside whitespace. *)
Lemma joined_blocks_head (lines chunks : list str) (i : Z) :
  lines <> [] -> chunks <> [] ->
  exists c0 r0,
    join LF (block_lines (numbered_blocks i lines chunks)) = c0 :: r0
    /\ is_space c0 = false.
Proof.
  destruct lines as [|line lines]; [contradiction|].
  destruct chunks as [|text rest]; [contradiction|]. intros _ _.
  cbn [numbered_blocks]. rewrite block_lines_cons, join_block.
  destruct (str_of_int_head i) as (c0 & r0 & -> & H0).
  rewrite <- app_comm_cons. eauto.
Qed.

(** They end with the last character of the last cue and one LF. *)
Lemma joined_blocks_tail (lines : list str) :
  forall (i : Z) (chunks : list str),
    lines <> [] -> chunks <> [] ->
    Forall (fun c => exists p a, c = p ++ [a] /\ is_space a = false) chunks ->
    exists Y a,
      join LF (block_lines (numbered_blocks i lines chunks)) = Y ++ [a; LF]
      /\ is_space a = false.
Proof.
  induction lines as [|line lines IH]; intros i chunks Hl Hc Hv; [contradiction|].
  destruct chunks as [|text rest]; [contradiction|].
  inversion Hv as [|? ? (p & a & -> & Ha) Hrest]; subst.
  cbn [numbered_blocks]. rewrite block_lines_cons, join_block.
  set (x := str_of_int i).
  assert (Hlast : forall more, more = [] ->
            exists Y a0,
              x ++ LF :: line ++ LF :: (p ++ [a]) ++ LF
                :: match more with [] => [] | _ => LF :: join LF more end
              = Y ++ [a0; LF] /\ is_space a0 = false).
  { intros more ->. exists (x ++ LF :: line ++ LF :: p), a.
    split; [list_eq | exact Ha]. }
  destruct lines as [|line' lines']; [now apply Hlast|].
  destruct rest as [|text' rest']; [now apply Hlast|].
  destruct (IH (i + 1) (text' :: rest')) as (Y & b & E & Hb);
    [discriminate | discriminate | exact Hrest |].
  rewrite E.
  destruct (block_lines _) as [|l ls] eqn:Em.
  { cbn [numbered_blocks] in Em. rewrite block_lines_cons in Em. discriminate. }
  exists (x ++ LF :: line ++ LF :: (p ++ [a]) ++ LF :: LF :: Y), b.
  split; [list_eq | exact Hb].
Qed.

Lemma strip_joined (c0 a : char) (r0 Y : str) :
  is_space c0 = false -> is_space a = false ->
  c0 :: r0 = Y ++ [a; LF] ->
  strip (Y ++ [a; LF]) ++ [LF] = Y ++ [a; LF].
Proof.
  intros H0 Ha E. unfold strip. rewrite <- E, (lstrip_fixed c0 r0 H0), E.
  change (Y ++ [a; LF]) with (Y ++ [a] ++ [LF]). rewrite app_assoc.
  rewrite rstrip_snoc_space by reflexivity.
  now rewrite rstrip_snoc by exact Ha.
Qed.

Lemma valid_cue_spec (c : str) :
  valid_cue c = true ->
  c <> [] /\ no_lf c = true /\ exists p a, c = p ++ [a] /\ is_space a = false.
Proof.
  unfold valid_cue. intros H.
  apply andb_true_iff in H as [H Hlb]. apply andb_true_iff in H as [Hne Hs].
  apply negb_true_iff, str_eqb_neq in Hne. apply str_eqb_eq in Hs.
  split; [exact Hne|]. split.
  - unfold no_lf. rewrite forallb_forall in *. intros x Hx.
    specialize (Hlb x Hx). apply negb_true_iff in Hlb. apply negb_true_iff.
    apply N.eqb_neq. intros ->. discriminate.
  - unfold strip in Hs. destruct (rstrip_cases (lstrip c)) as [E | (p & a & E & Ha)].
    + rewrite E in Hs. congruence.
    + exists p, a. split; [congruence | exact Ha].
Qed.

Lemma interval_lines_spec (ivs : list (Z * Z)) :
  forall lines,
    interval_lines ivs = Ok lines ->
    List.length lines = List.length ivs
    /\ forallb no_lf lines = true
    /\ Forall (fun l => l <> []) lines
    /\ forall i iv, nth_error ivs i = Some iv ->
         exists l, nth_error lines i = Some l /\ interval_line iv = Ok l.
Proof.
  induction ivs as [|iv ivs IH]; intros lines H; cbn [interval_lines] in H.
  - injection H as <-. repeat split; try constructor. intros [|i] ?; discriminate.
  - destruct (interval_line iv) as [l|] eqn:El; [|discriminate]. cbn [bind] in H.
    destruct (interval_lines ivs) as [ls|]; [|discriminate]. cbn [bind] in H.
    injection H as <-. destruct (IH ls eq_refl) as (Hlen & Hnl & Hne & Hnth).
    destruct (interval_line_no_lf iv l El) as [Hl1 Hl2].
    split; [cbn; now rewrite Hlen|]. split; [cbn [forallb]; now rewrite Hl1|].
    split; [now constructor|].
    intros [|i] iv' Hi; cbn [nth_error] in *.
    + injection Hi as <-. eauto.
    + now apply Hnth.
Qed.

Lemma numbered_blocks_nth (lines : list str) :
  forall (i0 : Z) (chunks : list str) (i : nat) (l c : str),
    nth_error lines i = Some l -> nth_error chunks i = Some c ->
    nth_error (numbered_blocks i0 lines chunks) i
    = Some [str_of_int (i0 + Z.of_nat i); l; c].
Proof.
  induction lines as [|line lines IH]; intros i0 chunks i l c Hl Hc.
  - destruct i; discriminate.
  - destruct chunks as [|text rest]; [destruct i; discriminate|].
    destruct i as [|i]; cbn [nth_error numbered_blocks] in *.
    + injection Hl as <-. injection Hc as <-. now rewrite Z.add_0_r.
    + rewrite (IH (i0 + 1) rest i l c Hl Hc). do 3 f_equal. lia.
Qed.

Lemma numbered_blocks_length (lines : list str) :
  forall (i0 : Z) (chunks : list str),
    List.length lines = List.length chunks ->
    List.length (numbered_blocks i0 lines chunks) = List.length chunks.
Proof.
  induction lines as [|line lines IH]; intros i0 [|text rest] H;
    try discriminate; [reflexivity|].
  cbn [numbered_blocks List.length] in *. f_equal. apply IH. lia.
Qed.

(** A document of valid cues, re-parsed, is its blocks. *)
Lemma reparse_document (lines chunks : list str) :
  List.length lines = List.length chunks ->
  forallb no_lf lines = true -> Forall (fun l => l <> []) lines ->
  forallb valid_cue chunks = true ->
  split_on_blank_lines
    (strip (join LF (block_lines (numbered_blocks 1 lines chunks))) ++ [LF])
  = numbered_blocks 1 lines chunks.
Proof.
  intros Hlen Hnl Hne Hv.
  assert (Hc : Forall (fun c => c <> [] /\ no_lf c = true
                        /\ exists p a, c = p ++ [a] /\ is_space a = false) chunks).
  { apply Forall_forall. intros c Hin. apply valid_cue_spec.
    rewrite forallb_forall in Hv. now apply Hv. }
  destruct chunks as [|text rest].
  { destruct lines; [reflexivity | discriminate]. }
  destruct lines as [|line lines']; [discriminate|].
  set (lines := line :: lines') in *. set (chunks := text :: rest) in *.
  destruct (joined_blocks_head lines chunks 1) as (c0 & r0 & E1 & H0);
    [discriminate | discriminate |].
  destruct (joined_blocks_tail lines 1 chunks) as (Y & a & E2 & Ha);
    [discriminate | discriminate | |].
  { eapply Forall_impl; [|exact Hc]. cbn. intros c (_ & _ & H). exact H. }
  rewrite E2, (strip_joined c0 a r0 Y H0 Ha) by congruence. rewrite <- E2.
  unfold split_on_blank_lines. rewrite split_join.
  - apply group_numbered_blocks; [exact Hne|].
    eapply Forall_impl; [|exact Hc]. cbn. intros c (H & _). exact H.
  - subst lines chunks. cbn [numbered_blocks]. rewrite block_lines_cons. discriminate.
  - apply no_lf_block_lines; [exact Hnl|].
    apply forallb_forall. intros c Hin. rewrite Forall_forall in Hc.
    now destruct (Hc c Hin) as (_ & H & _).
Qed.

End Reparse.

(** C4. When every cue is non-empty, trimmed and free of line breaks and
    [generate_srt] returns a document, splitting the document on blank
    lines gives one block per cue, and the i-th block is the index line
    of i, the timestamp line of the i-th interval and the i-th cue text,
    unchanged. *)
Theorem reparse_gives_cues_back (chunks : list str) (d : float)
    (gap_ms start_ms : Z) (out : str) :
  forallb valid_cue chunks = true ->
  generate_srt chunks d gap_ms start_ms = Ok out ->
  List.length (split_on_blank_lines out) = List.length chunks
  /\ exists dur_ms,
       effective_duration d = Ok dur_ms
       /\ forall (i : nat) (text : str),
            nth_error chunks i = Some text ->
            exists (iv : Z * Z) (line : str),
              nth_error (cue_intervals (List.length chunks) dur_ms
                           (Z.max 0 gap_ms) (Z.max 0 start_ms)) i = Some iv
              /\ interval_line iv = Ok line
              /\ nth_error (split_on_blank_lines out) i
                 = Some [str_of_int (Z.of_nat i + 1); line; text].
Proof.
  intros Hv H. rewrite generate_srt_eq in H.
  destruct (effective_duration d) as [dur|]; [|discriminate]. cbn [bind] in H.
  unfold srt_document in H.
  set (ivs := cue_intervals _ _ _ _) in H.
  destruct (interval_lines ivs) as [lines|] eqn:El; [|discriminate]. cbn [bind] in H.
  injection H as <-.
  destruct (interval_lines_spec ivs lines El) as (Hlen & Hnl & Hne & Hnth).
  assert (Hlen' : List.length lines = List.length chunks).
  { rewrite Hlen. apply cue_intervals_length. }
  rewrite (reparse_document lines chunks Hlen' Hnl Hne Hv).
  split; [now apply numbered_blocks_length|].
  exists dur. split; [reflexivity|]. fold ivs.
  intros i text Hi.
  assert (Hiv : exists iv, nth_error ivs i = Some iv).
  { destruct (nth_error ivs i) eqn:E; [eauto|].
    apply nth_error_None in E.
    assert (Hlt : (i < List.length chunks)%nat)
      by (apply nth_error_Some; congruence).
    unfold ivs in E. rewrite cue_intervals_length in E. lia. }
  destruct Hiv as [iv Hiv]. destruct (Hnth i iv Hiv) as (l & Hl & Hline).
  exists iv, l. split; [exact Hiv|]. split; [exact Hline|].
  rewrite (numbered_blocks_nth lines 1 chunks i l text Hl Hi).
  do 3 f_equal. lia.
Qed.

Lemma reparse_gives_cues_back_witness :
  forallb valid_cue [py "Hello world."; py "How are you?"] = true
  /\ generate_srt [py "Hello world."; py "How are you?"] two_and_a_half 200 0
     = Ok (join LF [py "1"; py "00:00:00,000 --> 00:00:02,500"; py "Hello world."; [];
                    py "2"; py "00:00:02,700 --> 00:00:05,200"; py "How are you?"; []])
  /\ List.length
       (split_on_blank_lines
          (join LF [py "1"; py "00:00:00,000 --> 00:00:02,500"; py "Hello world."; [];
                    py "2"; py "00:00:02,700 --> 00:00:05,200"; py "How are you?"; []]))
     = 2%nat
  /\ exists line,
       nth_error
         (split_on_blank_lines
            (join LF [py "1"; py "00:00:00,000 --> 00:00:02,500"; py "Hello world."; [];
                      py "2"; py "00:00:02,700 --> 00:00:05,200"; py "How are you?"; []]))
         1
       = Some [py "2"; line; py "How are you?"].
Proof.
  destruct (reparse_gives_cues_back
              [py "Hello world."; py "How are you?"] two_and_a_half 200 0 _
              eq_refl eq_refl) as (Hlen & dur & _ & Hall).
  split; [reflexivity|]. split; [reflexivity|]. split; [exact Hlen|].
  destruct (Hall 1%nat (py "How are you?") eq_refl) as (iv & line & _ & _ & Hblock).
  exists line. exact Hblock.
Defined.

(** ** The examples of the specification *)

Example segment_sentences_example :
  split_text (py "Hello world. How are you?") (py "sentences")
  = [py "Hello world."; py "How are you?"].
Proof. reflexivity. Qed.

Example segment_auto_example :
  split_text (join LF [py "line one"; py "line two"; py "line three"]) (py "auto")
  = [py "line one"; py "line two"; py "line three"].
Proof. reflexivity. Qed.

Example render_example :
  generate_srt [py "Hi there"] two_and_a_half 200 0
  = Ok (join LF [py "1"; py "00:00:00,000 --> 00:00:02,500"; py "Hi there"; []]).
Proof. reflexivity. Qed.

(** ** What the segmenter keeps and drops *)

Section CharClasses.

Lemma linebreak_is_space (c : char) : is_linebreak c = true -> is_space c = true.
Proof.
  unfold is_linebreak, is_space.
  repeat rewrite ?orb_true_iff, ?andb_true_iff, ?N.leb_le, ?N.eqb_eq. lia.
Qed.

Lemma blank_is_space (c : char) : is_blank c = true -> is_space c = true.
Proof.
  unfold is_blank, is_space, SPACE, TAB.
  repeat rewrite ?orb_true_iff, ?andb_true_iff, ?N.leb_le, ?N.eqb_eq. lia.
Qed.

Lemma not_space_not_blank (c : char) : is_space c = false -> is_blank c = false.
Proof.
  intros H. destruct (is_blank c) eqn:E; [|reflexivity].
  apply blank_is_space in E. congruence.
Qed.

Lemma not_space_not_linebreak (c : char) :
  is_space c = false -> is_linebreak c = false.
Proof.
  intros H. destruct (is_linebreak c) eqn:E; [|reflexivity].
  apply linebreak_is_space in E. congruence.
Qed.

Lemma sentence_end_not_space (c : char) :
  is_sentence_end c = true -> is_space c = false.
Proof.
  unfold is_sentence_end. intros H.
  repeat rewrite ?orb_true_iff, ?N.eqb_eq in H.
  destruct H as [[-> | ->] | ->]; reflexivity.
Qed.

End CharClasses.

Section Visible.

Lemma visible_app (a b : str) : visible (a ++ b) = visible a ++ visible b.
Proof. apply filter_app. Qed.

Lemma visible_rev (s : str) : visible (rev s) = rev (visible s).
Proof.
  induction s as [|c s IH]; [reflexivity|].
  cbn [rev]. rewrite visible_app, IH. cbn [visible filter].
  destruct (negb (is_space c)); cbn [rev app]; [reflexivity | now rewrite app_nil_r].
Qed.

Lemma visible_lstrip (s : str) : visible (lstrip s) = visible s.
Proof.
  induction s as [|c s IH]; [reflexivity|].
  cbn [lstrip]. destruct (is_space c) eqn:E; [|reflexivity].
  rewrite IH. cbn [visible filter]. now rewrite E.
Qed.

Lemma visible_strip (s : str) : visible (strip s) = visible s.
Proof.
  unfold strip, rstrip.
  now rewrite visible_rev, visible_lstrip, visible_rev, rev_involutive, visible_lstrip.
Qed.

Lemma visible_sub_blank_runs (s : str) :
  forall in_run, visible (sub_blank_runs in_run s) = visible s.
Proof.
  induction s as [|c s IH]; intros in_run; [reflexivity|].
  cbn [sub_blank_runs]. destruct (is_blank c) eqn:E.
  - apply blank_is_space in E.
    destruct in_run; cbn [visible filter]; rewrite ?E; cbn [negb is_space];
      fold (visible (sub_blank_runs true s)); fold (visible s); apply IH.
  - cbn [visible filter]. fold (visible (sub_blank_runs false s)). fold (visible s).
    now rewrite IH.
Qed.

Lemma visible_cons_space (c : char) (s : str) :
  is_space c = true -> visible (c :: s) = visible s.
Proof. intros H. cbn [visible filter]. now rewrite H. Qed.

Lemma visible_snoc (cur : str) (c : char) (s : str) :
  visible (rev (c :: cur) ++ s) = visible (rev cur ++ c :: s).
Proof. cbn [rev]. now rewrite <- app_assoc. Qed.

(** The lines of [splitlines] hold every character but line boundaries. *)
Lemma visible_splitlines_go (n : nat) :
  forall (s cur : str),
    (List.length s <= n)%nat ->
    visible (List.concat (splitlines_go cur s)) = visible (rev cur ++ s).
Proof.
  induction n as [|n IH]; intros s cur Hlen.
  - destruct s; [|cbn in Hlen; lia]. cbn [splitlines_go].
    destruct cur; cbn [List.concat]; now rewrite ?app_nil_r.
  - destruct s as [|c r].
    { cbn [splitlines_go]. destruct cur; cbn [List.concat]; now rewrite ?app_nil_r. }
    cbn [List.length] in Hlen. cbn [splitlines_go].
    destruct (is_linebreak c) eqn:Ec.
    + pose proof (linebreak_is_space c Ec) as Hc.
      cbn [List.concat]. rewrite !visible_app, (visible_cons_space c r Hc).
      f_equal. destruct r as [|c' r'].
      * reflexivity.
      * destruct ((c =? CR)%N && (c' =? LF)%N) eqn:Ecr.
        -- apply andb_true_iff in Ecr as [_ E']. apply N.eqb_eq in E'. subst c'.
           rewrite (IH r' []) by (cbn [List.length] in Hlen; lia).
           now rewrite (visible_cons_space LF r' eq_refl).
        -- now rewrite (IH (c' :: r') []) by lia.
    + rewrite (IH r (c :: cur)) by lia. apply visible_snoc.
Qed.

Lemma visible_splitlines (s : str) :
  visible (List.concat (splitlines s)) = visible s.
Proof. exact (visible_splitlines_go (List.length s) s [] (le_n _)). Qed.

Lemma visible_split_sentences_go (s : str) :
  forall (st : scan) (cur : str),
    visible (List.concat (split_sentences_go st cur s)) = visible (rev cur ++ s).
Proof.
  induction s as [|c r IH]; intros st cur.
  - cbn [split_sentences_go List.concat]. now rewrite app_nil_r.
  - cbn [split_sentences_go]. destruct st as [[|]|].
    + destruct (is_space c) eqn:Ec.
      * cbn [List.concat]. rewrite !visible_app, IH, (visible_cons_space c r Ec).
        reflexivity.
      * rewrite IH. apply visible_snoc.
    + rewrite IH. apply visible_snoc.
    + destruct (is_space c) eqn:Ec.
      * rewrite IH, !visible_app. now rewrite (visible_cons_space c r Ec).
      * rewrite IH. apply visible_snoc.
Qed.

Lemma visible_stripped_nonempty (parts : list str) :
  visible (List.concat (stripped_nonempty parts)) = visible (List.concat parts).
Proof.
  unfold stripped_nonempty. induction parts as [|p parts IH]; [reflexivity|].
  cbn [map filter List.concat]. rewrite visible_app, <- IH, <- (visible_strip p).
  destruct (str_eqb (strip p) []) eqn:E; cbn [negb List.concat].
  - apply str_eqb_eq in E. now rewrite E.
  - now rewrite visible_app.
Qed.

Lemma visible_cleaned_text (text : str) : visible (cleaned_text text) = visible text.
Proof. unfold cleaned_text. now rewrite visible_sub_blank_runs, visible_strip. Qed.

Lemma visible_newline_branch (cleaned : str) :
  visible (List.concat (stripped_nonempty (splitlines cleaned))) = visible cleaned.
Proof. now rewrite visible_stripped_nonempty, visible_splitlines. Qed.

Lemma visible_sentence_branch (cleaned : str) :
  visible (List.concat (stripped_nonempty (split_sentences cleaned))) = visible cleaned.
Proof.
  rewrite visible_stripped_nonempty. unfold split_sentences.
  now rewrite visible_split_sentences_go.
Qed.

Lemma visible_nil_lstrip (s : str) : visible s = [] -> lstrip s = [].
Proof.
  induction s as [|c s IH]; [reflexivity|]. cbn [visible filter lstrip].
  destruct (is_space c); cbn [negb]; [exact IH | discriminate].
Qed.

Lemma visible_nil_strip (s : str) : visible s = [] -> strip s = [].
Proof. intros H. unfold strip. now rewrite (visible_nil_lstrip s H). Qed.

End Visible.


(** X1. [split_text] returns no piece exactly when every character of
    the text is whitespace, whatever the mode. *)
Theorem split_text_empty_iff (text mode : str) :
  split_text text mode = [] <-> visible text = [].
Proof.
  split; intros H.
  - assert (V : visible (List.concat (split_text text mode)) = visible text).
    { unfold split_text. fold (cleaned_text text).
      destruct (_ || _);
        [rewrite visible_newline_branch | rewrite visible_sentence_branch];
        apply visible_cleaned_text. }
    rewrite H in V. symmetry. exact V.
  - unfold split_text. rewrite (visible_nil_strip text H). cbn [sub_blank_runs].
    now destruct (_ || _).
Qed.

(** X17. What [generate] relies on. It strips the script and refuses it
    when nothing is left; for any other script [split_text] returns at
    least one piece, and stripping the script first changes no piece. *)
Theorem nonblank_text_gives_a_cue (text mode : str) :
  strip text <> [] ->
  split_text (strip text) mode <> []
  /\ split_text (strip text) mode = split_text text mode.
Proof.
  intros Hne.
  assert (E : split_text (strip text) mode = split_text text mode).
  { unfold split_text. now rewrite strip_idem. }
  split; [|exact E]. rewrite E. intros H. apply Hne, visible_nil_strip.
  assert (V : visible (List.concat (split_text text mode)) = visible text).
  { unfold split_text. fold (cleaned_text text).
    destruct (_ || _);
      [rewrite visible_newline_branch | rewrite visible_sentence_branch];
      apply visible_cleaned_text. }
  rewrite H in V. symmetry. exact V.
Qed.

Lemma nonblank_text_gives_a_cue_witness :
  strip (py "  Hi. Yo  ") <> []
  /\ split_text (strip (py "  Hi. Yo  ")) (py "auto") = [py "Hi."; py "Yo"]
  /\ split_text (strip (py "  Hi. Yo  ")) (py "auto") <> []
  /\ split_text (strip (py "  Hi. Yo  ")) (py "auto")
     = split_text (py "  Hi. Yo  ") (py "auto").
Proof.
  split; [discriminate|]. split; [reflexivity|].
  apply nonblank_text_gives_a_cue. discriminate.
Defined.

Section Pieces.

(** A property of strings that every contiguous part of a string
    inherits. *)
Variable P : str -> Prop.
Hypothesis P_prefix : forall a b, P (a ++ b) -> P a.
Hypothesis P_suffix : forall a b, P (a ++ b) -> P b.

Lemma lstrip_suffix (s : str) : exists a, s = a ++ lstrip s.
Proof.
  induction s as [|c s [a IH]]; [now exists []|]. cbn [lstrip].
  destruct (is_space c).
  - exists (c :: a). cbn [app]. now f_equal.
  - now exists [].
Qed.

Lemma rstrip_prefix (s : str) : exists b, s = rstrip s ++ b.
Proof.
  unfold rstrip. destruct (lstrip_suffix (rev s)) as [a H].
  exists (rev a). rewrite <- rev_app_distr, <- H. now rewrite rev_involutive.
Qed.

Lemma part_strip (s : str) : P s -> P (strip s).
Proof.
  intros H. unfold strip.
  destruct (lstrip_suffix s) as [a Ha]. rewrite Ha in H. apply P_suffix in H.
  destruct (rstrip_prefix (lstrip s)) as [b Hb]. rewrite Hb in H.
  now apply P_prefix in H.
Qed.

Lemma part_stripped_nonempty (parts : list str) :
  Forall P parts -> Forall P (stripped_nonempty parts).
Proof.
  unfold stripped_nonempty. induction 1 as [|p parts Hp _ IH]; [constructor|].
  cbn [map filter]. destruct (negb _); [constructor|]; auto using part_strip.
Qed.

Lemma part_splitlines_go (n : nat) :
  forall (s cur : str),
    (List.length s <= n)%nat -> P (rev cur ++ s) -> Forall P (splitlines_go cur s).
Proof.
  induction n as [|n IH]; intros s cur Hlen H.
  - destruct s; [|cbn in Hlen; lia]. cbn [splitlines_go].
    rewrite app_nil_r in H. destruct cur; repeat constructor. exact H.
  - destruct s as [|c r].
    { cbn [splitlines_go]. rewrite app_nil_r in H.
      destruct cur; repeat constructor. exact H. }
    cbn [List.length] in Hlen. cbn [splitlines_go].
    destruct (is_linebreak c).
    + constructor; [exact (P_prefix _ _ H)|].
      assert (Hr : P r).
      { apply (P_suffix (rev cur ++ [c])). now rewrite <- app_assoc. }
      destruct r as [|c' r']; [constructor|].
      destruct (_ && _).
      * apply IH; [cbn [List.length] in Hlen; lia|]. exact (P_suffix [c'] r' Hr).
      * apply IH; [lia | exact Hr].
    + apply IH; [lia|]. cbn [rev]. now rewrite <- app_assoc.
Qed.

Lemma part_split_sentences_go (s : str) :
  forall (st : scan) (cur : str),
    (st = InSeparator -> cur = []) ->
    P (rev cur ++ s) -> Forall P (split_sentences_go st cur s).
Proof.
  induction s as [|c r IH]; intros st cur Hst H.
  - cbn [split_sentences_go]. rewrite app_nil_r in H. now repeat constructor.
  - assert (Hstep : forall b, Forall P (split_sentences_go (InPiece b) (c :: cur) r)).
    { intros b. apply IH; [discriminate|]. cbn [rev]. now rewrite <- app_assoc. }
    cbn [split_sentences_go]. destruct st as [[|]|]; try apply Hstep.
    + destruct (is_space c); [|apply Hstep].
      constructor; [exact (P_prefix _ _ H)|].
      apply IH; [reflexivity|].
      apply (P_suffix (rev cur ++ [c])). now rewrite <- app_assoc.
    + destruct (is_space c); [|apply Hstep].
      rewrite (Hst eq_refl) in *. apply IH; [reflexivity|].
      exact (P_suffix [c] r H).
Qed.

(** Every piece of [split_text] inherits what holds of the cleaned
    text and of all its parts. *)
Lemma part_split_text (text mode : str) :
  P (cleaned_text text) -> Forall P (split_text text mode).
Proof.
  intros H. unfold split_text. fold (cleaned_text text).
  destruct (_ || _); apply part_stripped_nonempty.
  - apply (part_splitlines_go (List.length (cleaned_text text))); [lia | exact H].
  - apply part_split_sentences_go; [discriminate | exact H].
Qed.

End Pieces.

Section BlankCollapsed.

Lemma blank_collapsed_weaken (s : str) (b : bool) :
  blank_collapsed b s = true -> blank_collapsed false s = true.
Proof.
  destruct s as [|c r]; [reflexivity|]. cbn [blank_collapsed].
  rewrite !andb_true_iff. intros [[H1 _] H3]. now rewrite H1, H3.
Qed.

Lemma blank_collapsed_prefix (a b : str) :
  forall f, blank_collapsed f (a ++ b) = true -> blank_collapsed f a = true.
Proof.
  induction a as [|c a IH]; intros f; [reflexivity|]. cbn [app blank_collapsed].
  rewrite !andb_true_iff. intros [H12 H3]. split; [exact H12 | now apply IH].
Qed.

Lemma blank_collapsed_suffix (a b : str) :
  forall f, blank_collapsed f (a ++ b) = true -> blank_collapsed false b = true.
Proof.
  induction a as [|c a IH]; intros f; cbn [app].
  - apply blank_collapsed_weaken.
  - cbn [blank_collapsed]. rewrite !andb_true_iff. intros [_ H3]. now apply IH in H3.
Qed.

Lemma blank_collapsed_sub (s : str) :
  forall in_run, blank_collapsed in_run (sub_blank_runs in_run s) = true.
Proof.
  induction s as [|c s IH]; intros in_run; [reflexivity|].
  cbn [sub_blank_runs]. unfold is_blank.
  destruct (c =? SPACE)%N eqn:Es; cbn [orb].
  - destruct in_run; [apply IH|]. cbn [blank_collapsed]. now rewrite IH.
  - destruct (c =? TAB)%N eqn:Et.
    + destruct in_run; [apply IH|]. cbn [blank_collapsed]. now rewrite IH.
    + cbn [blank_collapsed]. rewrite Et, Es, IH. now rewrite andb_false_r.
Qed.

End BlankCollapsed.

(** X3. No piece holds a tab or two spaces in a row, whatever the
    mode. *)
Theorem split_text_blank_collapsed (text mode : str) :
  Forall (fun p => blank_collapsed false p = true) (split_text text mode).
Proof.
  apply (part_split_text (fun p => blank_collapsed false p = true)).
  - intros a b. apply blank_collapsed_prefix.
  - intros a b. apply blank_collapsed_suffix.
  - apply blank_collapsed_sub.
Qed.

Section ValidPieces.

Lemma no_linebreak_app (a b : str) :
  no_linebreak (a ++ b) = no_linebreak a && no_linebreak b.
Proof. apply forallb_app. Qed.

Lemma no_linebreak_rev (s : str) : no_linebreak (rev s) = no_linebreak s.
Proof.
  induction s as [|c s IH]; [reflexivity|]. cbn [rev].
  rewrite no_linebreak_app, IH. cbn [no_linebreak forallb].
  now rewrite andb_true_r, andb_comm.
Qed.

Lemma no_linebreak_prefix (a b : str) :
  no_linebreak (a ++ b) = true -> no_linebreak a = true.
Proof. rewrite no_linebreak_app. now intros [H _]%andb_true_iff. Qed.

Lemma no_linebreak_suffix (a b : str) :
  no_linebreak (a ++ b) = true -> no_linebreak b = true.
Proof. rewrite no_linebreak_app. now intros [_ H]%andb_true_iff. Qed.

(** No line of [splitlines] holds a line boundary. *)
Lemma no_linebreak_splitlines_go (n : nat) :
  forall (s cur : str),
    (List.length s <= n)%nat -> no_linebreak cur = true ->
    Forall (fun p => no_linebreak p = true) (splitlines_go cur s).
Proof.
  induction n as [|n IH]; intros s cur Hlen H.
  - destruct s; [|cbn in Hlen; lia]. cbn [splitlines_go].
    destruct cur; repeat constructor. now rewrite no_linebreak_rev.
  - destruct s as [|c r].
    { cbn [splitlines_go]. destruct cur; repeat constructor.
      now rewrite no_linebreak_rev. }
    cbn [List.length] in Hlen. cbn [splitlines_go].
    destruct (is_linebreak c) eqn:Ec.
    + constructor; [now rewrite no_linebreak_rev|].
      destruct r as [|c' r']; [constructor|].
      destruct (_ && _); apply IH; cbn [List.length] in *; try lia; reflexivity.
    + apply IH; [lia|]. cbn [no_linebreak forallb]. now rewrite Ec.
Qed.

Lemma no_linebreak_sub (s : str) :
  forall in_run, no_linebreak s = true -> no_linebreak (sub_blank_runs in_run s) = true.
Proof.
  induction s as [|c s IH]; intros in_run H; [reflexivity|].
  cbn [no_linebreak forallb] in H. apply andb_true_iff in H as [Hc Hs].
  cbn [sub_blank_runs]. destruct (is_blank c).
  - destruct in_run; [now apply IH|]. cbn [no_linebreak forallb].
    now apply IH.
  - cbn [no_linebreak forallb]. rewrite Hc. now apply IH.
Qed.

Lemma no_linebreak_cleaned (text : str) :
  no_linebreak text = true -> no_linebreak (cleaned_text text) = true.
Proof.
  intros H. unfold cleaned_text. apply no_linebreak_sub.
  apply (part_strip (fun p => no_linebreak p = true));
    [exact no_linebreak_prefix | exact no_linebreak_suffix | exact H].
Qed.

(** A stripped piece that is kept is a valid cue as soon as it holds no
    line boundary. *)
Lemma valid_stripped_nonempty (parts : list str) :
  Forall (fun p => no_linebreak p = true) parts ->
  forallb valid_cue (stripped_nonempty parts) = true.
Proof.
  unfold stripped_nonempty. induction 1 as [|p parts Hp _ IH]; [reflexivity|].
  cbn [map filter]. destruct (str_eqb (strip p) []) eqn:E; cbn [negb]; [exact IH|].
  cbn [forallb]. rewrite IH, andb_true_r. unfold valid_cue. rewrite E. cbn [negb andb].
  rewrite strip_idem. rewrite (proj2 (str_eqb_eq _ _) eq_refl). cbn [andb].
  apply (part_strip (fun p => no_linebreak p = true));
    [exact no_linebreak_prefix | exact no_linebreak_suffix | exact Hp].
Qed.

End ValidPieces.

Section ValidSegments.

Lemma newline_pieces_valid (text : str) :
  forallb valid_cue (split_text text (py "newlines")) = true.
Proof.
  rewrite split_text_newlines. apply valid_stripped_nonempty.
  apply (no_linebreak_splitlines_go (List.length (cleaned_text text))); [lia | reflexivity].
Qed.

Lemma single_line_pieces_valid (text mode : str) :
  no_linebreak text = true -> forallb valid_cue (split_text text mode) = true.
Proof.
  intros H. apply no_linebreak_cleaned in H.
  unfold split_text. fold (cleaned_text text).
  destruct (_ || _); apply valid_stripped_nonempty.
  - apply (part_splitlines_go _ no_linebreak_prefix no_linebreak_suffix
             (List.length (cleaned_text text))); [lia | exact H].
  - apply (part_split_sentences_go _ no_linebreak_prefix no_linebreak_suffix);
      [discriminate | exact H].
Qed.

End ValidSegments.

(** X4. In mode "newlines", and in any mode when the text holds no
    line boundary, every piece is a valid cue: not empty, trimmed and on
    one line. *)
Theorem split_text_valid_cues (text mode : str) :
  mode = py "newlines" \/ no_linebreak text = true ->
  forallb valid_cue (split_text text mode) = true.
Proof.
  intros [-> | H].
  - apply newline_pieces_valid.
  - apply single_line_pieces_valid, H.
Qed.

Lemma split_text_valid_cues_witness :
  forallb valid_cue
    (split_text (join LF [py "First line.  Still first. "; []; py " Second"]) (py "newlines"))
  = true
  /\ split_text (join LF [py "First line.  Still first. "; []; py " Second"]) (py "newlines")
     = [py "First line. Still first."; py "Second"].
Proof.
  split; [|reflexivity].
  apply split_text_valid_cues. left. reflexivity.
Defined.

(** ** The pieces of the sentence mode *)

Section Sentences.

Lemma after_end_cons (f : bool) (c : char) (s : str) :
  after_end f (c :: s) = after_end (is_sentence_end c) s.
Proof.
  unfold after_end. cbn [rev]. destruct (rev s); reflexivity.
Qed.

Lemma after_end_snoc (f : bool) (s : str) (c : char) :
  after_end f (s ++ [c]) = is_sentence_end c.
Proof. unfold after_end. now rewrite rev_app_distr. Qed.

Lemma no_boundary_snoc (s : str) (c : char) :
  forall f,
    no_boundary f (s ++ [c]) = no_boundary f s && negb (after_end f s && is_space c).
Proof.
  induction s as [|a s IH]; intros f.
  - cbn. now rewrite andb_true_r.
  - cbn [app no_boundary]. rewrite IH, after_end_cons. now rewrite andb_assoc.
Qed.

Lemma no_boundary_weaken (s : str) (f : bool) :
  no_boundary f s = true -> no_boundary false s = true.
Proof.
  destruct s as [|c r]; [reflexivity|]. cbn [no_boundary].
  now intros [_ H]%andb_true_iff.
Qed.

Lemma no_boundary_prefix (a b : str) :
  forall f, no_boundary f (a ++ b) = true -> no_boundary f a = true.
Proof.
  induction a as [|c a IH]; intros f; [reflexivity|]. cbn [app no_boundary].
  rewrite !andb_true_iff. intros [H1 H2]. split; [exact H1 | now apply IH].
Qed.

Lemma no_boundary_suffix (a b : str) :
  forall f, no_boundary f (a ++ b) = true -> no_boundary false b = true.
Proof.
  induction a as [|c a IH]; intros f; cbn [app].
  - apply no_boundary_weaken.
  - cbn [no_boundary]. rewrite andb_true_iff. intros [_ H]. now apply IH in H.
Qed.

Lemma split_sentences_go_nonempty (s : str) (st : scan) (cur : str) :
  split_sentences_go st cur s <> [].
Proof.
  revert st cur. induction s as [|c r IH]; intros st cur; cbn [split_sentences_go].
  - discriminate.
  - destruct st as [[|]|]; try destruct (is_space c); try apply IH; discriminate.
Qed.

Lemma removelast_cons (A : Type) (x : A) (l : list A) :
  l <> [] -> removelast (x :: l) = x :: removelast l.
Proof. destruct l; [contradiction | reflexivity]. Qed.

(** The scanner keeps two facts about the current piece: it has no
    sentence end followed by whitespace, and the state knows whether its
    last character is a sentence end. Then no piece has such a place
    inside and every piece but the last ends with a sentence end. *)
Lemma split_sentences_go_spec (s : str) :
  forall (st : scan) (cur : str),
    match st with
    | InPiece b => after_end false (rev cur) = b
    | InSeparator => cur = []
    end ->
    no_boundary false (rev cur) = true ->
    Forall (fun p => no_boundary false p = true) (split_sentences_go st cur s)
    /\ Forall (fun p => ends_with_sentence_end p = true)
         (removelast (split_sentences_go st cur s)).
Proof.
  induction s as [|c r IH]; intros st cur Hst Hcur.
  - cbn [split_sentences_go removelast]. split; repeat constructor. exact Hcur.
  - assert (Hstep : forall b,
              after_end false (rev cur) = b -> (b && is_space c) = false ->
              Forall (fun p => no_boundary false p = true)
                (split_sentences_go (InPiece (is_sentence_end c)) (c :: cur) r)
              /\ Forall (fun p => ends_with_sentence_end p = true)
                   (removelast
                      (split_sentences_go (InPiece (is_sentence_end c)) (c :: cur) r))).
    { intros b Hb Hc. apply IH.
      - cbn [rev]. apply after_end_snoc.
      - cbn [rev]. rewrite no_boundary_snoc, Hcur, Hb, Hc. reflexivity. }
    cbn [split_sentences_go]. destruct st as [[|]|].
    + destruct (is_space c) eqn:Ec.
      * destruct (IH InSeparator [] eq_refl eq_refl) as [H1 H2].
        rewrite removelast_cons by apply split_sentences_go_nonempty.
        split; constructor; assumption.
      * apply (Hstep true Hst). reflexivity.
    + apply (Hstep false Hst). reflexivity.
    + subst cur. destruct (is_space c) eqn:Ec.
      * now apply IH.
      * apply (Hstep false eq_refl). reflexivity.
Qed.

Lemma lstrip_snoc (q : str) (e : char) :
  is_space e = false -> exists q', lstrip (q ++ [e]) = q' ++ [e].
Proof.
  intros He. induction q as [|c q [q' IH]].
  - exists []. cbn. now rewrite He.
  - cbn [app lstrip]. destruct (is_space c).
    + now exists q'.
    + now exists (c :: q).
Qed.

Lemma ends_with_sentence_end_snoc (p : str) :
  ends_with_sentence_end p = true ->
  exists q e, p = q ++ [e] /\ is_sentence_end e = true.
Proof.
  unfold ends_with_sentence_end, after_end. destruct (rev p) as [|e q] eqn:E.
  - discriminate.
  - intros He. exists (rev q), e. split; [|exact He].
    rewrite <- (rev_involutive p), E. reflexivity.
Qed.

(** Stripping keeps a final sentence end. *)
Lemma strip_keeps_sentence_end (p : str) :
  ends_with_sentence_end p = true ->
  strip p <> [] /\ ends_with_sentence_end (strip p) = true.
Proof.
  intros H. destruct (ends_with_sentence_end_snoc p H) as (q & e & -> & He).
  pose proof (sentence_end_not_space e He) as Hs.
  destruct (lstrip_snoc q e Hs) as [q' Hq]. unfold strip.
  rewrite Hq, (rstrip_snoc q' e Hs). split.
  - destruct q'; discriminate.
  - unfold ends_with_sentence_end. now rewrite after_end_snoc.
Qed.

Lemma stripped_nonempty_all_but_last (parts : list str) :
  Forall (fun p => ends_with_sentence_end p = true) (removelast parts) ->
  Forall (fun p => ends_with_sentence_end p = true)
    (removelast (stripped_nonempty parts)).
Proof.
  unfold stripped_nonempty. induction parts as [|p [|q l] IH]; intros H.
  - constructor.
  - cbn [map filter]. destruct (negb _); constructor.
  - rewrite removelast_cons in H by discriminate.
    inversion H as [|? ? Hp Hrest]; subst.
    destruct (strip_keeps_sentence_end p Hp) as [Hne Hend].
    apply str_eqb_neq in Hne.
    change (filter _ (map strip (p :: q :: l)))
      with (if negb (str_eqb (strip p) [])
            then strip p :: filter (fun p => negb (str_eqb p [])) (map strip (q :: l))
            else filter (fun p => negb (str_eqb p [])) (map strip (q :: l))).
    rewrite Hne. cbn [negb].
    destruct (filter _ (map strip (q :: l))) as [|x xs] eqn:E.
    + constructor.
    + rewrite removelast_cons by discriminate. constructor; [exact Hend|].
      now apply IH.
Qed.

End Sentences.

(** X5. In mode "sentences" every piece but the last ends with [.],
    [!] or [?]. *)
Theorem sentences_end_with_punctuation (text : str) :
  Forall (fun p => ends_with_sentence_end p = true)
    (removelast (split_text text (py "sentences"))).
Proof.
  rewrite split_text_sentences. apply stripped_nonempty_all_but_last.
  apply (split_sentences_go_spec (cleaned_text text) (InPiece false) []); reflexivity.
Qed.

(** X6. In mode "sentences" no piece holds a sentence end followed by
    whitespace: no piece could be split further. *)
Theorem sentences_have_no_boundary_inside (text : str) :
  Forall (fun p => no_boundary false p = true) (split_text text (py "sentences")).
Proof.
  rewrite split_text_sentences.
  apply (part_stripped_nonempty (fun p => no_boundary false p = true)).
  - intros a b. apply no_boundary_prefix.
  - intros a b. apply no_boundary_suffix.
  - apply (split_sentences_go_spec (cleaned_text text) (InPiece false) []); reflexivity.
Qed.

(** ** Segmenting what was segmented *)

Section JoinedCues.

Lemma trimmed_strip (c : str) : trimmed c -> strip c = c.
Proof.
  intros [(c0 & r0 & E0 & H0) (q & a & Ea & Ha)]. unfold strip.
  rewrite E0, (lstrip_fixed c0 r0 H0), <- E0, Ea. now apply rstrip_snoc.
Qed.

Lemma trimmed_nonempty (c : str) : trimmed c -> c <> [].
Proof. intros [(c0 & r0 & -> & _) _]. discriminate. Qed.

Lemma strip_trimmed_cases (p : str) : strip p = [] \/ trimmed (strip p).
Proof.
  destruct (strip_cases p) as [E | (c0 & r0 & E & H0)]; [now left|]. right. split.
  - eauto.
  - unfold strip in *. destruct (rstrip_cases (lstrip p)) as [E' | (q & a & E' & Ha)].
    + rewrite E' in E. discriminate.
    + eauto.
Qed.

Lemma is_trimmed_nonempty_spec (c : str) :
  is_trimmed_nonempty c = true -> trimmed c.
Proof.
  unfold is_trimmed_nonempty. rewrite !andb_true_iff, !negb_true_iff.
  intros [[Hne H0] Ha]. split.
  - destruct c as [|c0 r0]; [discriminate|]. eauto.
  - destruct (rev c) as [|a q] eqn:E.
    + apply (f_equal (@rev char)) in E. rewrite rev_involutive in E.
      subst c. discriminate.
    + exists (rev q), a. split; [|exact Ha].
      rewrite <- (rev_involutive c), E. reflexivity.
Qed.

Lemma valid_cue_trimmed (c : str) : valid_cue c = true -> trimmed c.
Proof.
  unfold valid_cue. rewrite !andb_true_iff, negb_true_iff.
  intros [[Hne Hs] _]. apply str_eqb_neq in Hne. apply str_eqb_eq in Hs.
  destruct (strip_trimmed_cases c) as [E | H]; rewrite Hs in *; [contradiction | exact H].
Qed.

Variable sep : char.

Lemma join_cons_cons (p q : str) (rest : list str) :
  join sep (p :: q :: rest) = p ++ sep :: join sep (q :: rest).
Proof. reflexivity. Qed.

(** Joined trimmed cues form a trimmed text. *)
Lemma join_trimmed (cues : list str) :
  cues <> [] -> Forall trimmed cues -> trimmed (join sep cues).
Proof.
  induction cues as [|p [|q rest] IH]; intros Hne H; [contradiction| |].
  - inversion H; subst. assumption.
  - inversion H as [|? ? Hp Hrest]; subst.
    destruct (IH ltac:(discriminate) Hrest) as [_ (Y & a & E & Ha)].
    destruct Hp as [(c0 & r0 & -> & H0) _].
    rewrite join_cons_cons, E. split.
    + rewrite <- app_comm_cons. eauto.
    + exists ((c0 :: r0) ++ sep :: Y), a. split; [|exact Ha].
      now rewrite <- app_assoc, <- app_comm_cons.
Qed.

Lemma stripped_nonempty_fixed (cues : list str) :
  Forall trimmed cues -> stripped_nonempty cues = cues.
Proof.
  unfold stripped_nonempty. induction 1 as [|c cues Hc _ IH]; [reflexivity|].
  cbn [map filter]. rewrite (trimmed_strip c Hc).
  rewrite (proj2 (str_eqb_neq c []) (trimmed_nonempty c Hc)). cbn [negb].
  now rewrite IH.
Qed.

End JoinedCues.

Section BlankCollapsedJoin.

Lemma prev_space_cons (f : bool) (c : char) (s : str) :
  prev_space f (c :: s) = prev_space (c =? SPACE)%N s.
Proof. unfold prev_space. cbn [rev]. destruct (rev s); reflexivity. Qed.

Lemma blank_collapsed_app (a s : str) :
  forall f,
    blank_collapsed f (a ++ s)
    = blank_collapsed f a && blank_collapsed (prev_space f a) s.
Proof.
  induction a as [|c a IH]; intros f; [reflexivity|].
  cbn [app blank_collapsed]. rewrite IH, prev_space_cons. now rewrite andb_assoc.
Qed.

Lemma prev_space_trimmed (f : bool) (c : str) :
  trimmed c -> prev_space f c = false.
Proof.
  intros [_ (q & a & -> & Ha)]. unfold prev_space. rewrite rev_app_distr. cbn.
  destruct (a =? SPACE)%N eqn:E; [|reflexivity].
  apply N.eqb_eq in E. subst a. discriminate.
Qed.

Lemma blank_collapsed_trimmed (f : bool) (c : str) :
  trimmed c -> blank_collapsed f c = blank_collapsed false c.
Proof.
  intros [(c0 & r0 & -> & H0) _]. cbn [blank_collapsed].
  destruct (c0 =? SPACE)%N eqn:E.
  - apply N.eqb_eq in E. subst c0. discriminate.
  - now rewrite andb_false_r.
Qed.

(** Joining with LF or with one space keeps the blanks collapsed. *)
Lemma blank_collapsed_join (sep : char) (cues : list str) :
  sep = LF \/ sep = SPACE ->
  Forall trimmed cues ->
  Forall (fun c => blank_collapsed false c = true) cues ->
  blank_collapsed false (join sep cues) = true.
Proof.
  intros Hsep Ht Hb. induction cues as [|p [|q rest] IH]; [reflexivity| |].
  - now inversion Hb.
  - inversion Ht as [|? ? Hp Hrest]; subst.
    inversion Hb as [|? ? Hbp Hbrest]; subst.
    specialize (IH Hrest Hbrest).
    rewrite join_cons_cons, blank_collapsed_app, Hbp, (prev_space_trimmed _ p Hp).
    cbn [andb blank_collapsed].
    pose proof (join_trimmed sep (q :: rest) ltac:(discriminate) Hrest) as Hj.
    rewrite (blank_collapsed_trimmed _ _ Hj), IH.
    destruct Hsep as [-> | ->]; reflexivity.
Qed.

Lemma sub_blank_runs_fixed (s : str) :
  forall f, blank_collapsed f s = true -> sub_blank_runs f s = s.
Proof.
  induction s as [|c s IH]; intros f H; [reflexivity|].
  cbn [blank_collapsed] in H. apply andb_true_iff in H as [H12 H3].
  apply andb_true_iff in H12 as [H1 H2]. apply negb_true_iff in H1, H2.
  cbn [sub_blank_runs]. unfold is_blank. rewrite H1, orb_false_r.
  destruct (c =? SPACE)%N eqn:Es.
  - rewrite andb_true_r in H2. subst f. apply N.eqb_eq in Es. subst c.
    now rewrite (IH true H3).
  - now rewrite (IH false H3).
Qed.

Lemma cleaned_text_fixed (s : str) :
  trimmed s -> blank_collapsed false s = true -> cleaned_text s = s.
Proof.
  intros Ht Hb. unfold cleaned_text. rewrite (trimmed_strip s Ht).
  now apply sub_blank_runs_fixed.
Qed.

End BlankCollapsedJoin.

Section NewlineRoundTrip.

Lemma splitlines_go_piece (p : str) :
  no_linebreak p = true ->
  forall cur rest, splitlines_go cur (p ++ rest) = splitlines_go (rev p ++ cur) rest.
Proof.
  induction p as [|c p IH]; intros H cur rest; [reflexivity|].
  cbn [no_linebreak forallb] in H. apply andb_true_iff in H as [Hc Hp].
  apply negb_true_iff in Hc. cbn [app splitlines_go]. rewrite Hc.
  rewrite (IH Hp). cbn [rev]. now rewrite <- app_assoc.
Qed.

Lemma splitlines_go_lf (cur rest : str) :
  splitlines_go cur (LF :: rest) = rev cur :: splitlines_go [] rest.
Proof. cbn [splitlines_go]. destruct rest; reflexivity. Qed.

Lemma splitlines_join (cues : list str) :
  Forall (fun c => c <> [] /\ no_linebreak c = true) cues ->
  splitlines (join LF cues) = cues.
Proof.
  unfold splitlines. induction cues as [|p [|q rest] IH]; intros H; [reflexivity| |].
  - inversion H as [|? ? [Hne Hp] _]; subst. cbn [join].
    rewrite <- (app_nil_r p) at 1. rewrite (splitlines_go_piece p Hp).
    cbn [splitlines_go]. rewrite app_nil_r.
    destruct (rev p) eqn:E.
    + apply (f_equal (@rev char)) in E. rewrite rev_involutive in E. contradiction.
    + now rewrite <- E, rev_involutive.
  - inversion H as [|? ? [Hne Hp] Hrest]; subst.
    rewrite join_cons_cons, (splitlines_go_piece p Hp), splitlines_go_lf.
    rewrite app_nil_r, rev_involutive. f_equal. now apply IH.
Qed.

Lemma valid_cue_no_linebreak (c : str) : valid_cue c = true -> no_linebreak c = true.
Proof. unfold valid_cue. now intros [_ H]%andb_true_iff. Qed.

(** Segmenting, by lines, the LF-join of trimmed cues that hold no line
    boundary, no tab and no double space gives the cues back. *)
Lemma newlines_of_join (cues : list str) :
  Forall trimmed cues ->
  Forall (fun c => no_linebreak c = true) cues ->
  Forall (fun c => blank_collapsed false c = true) cues ->
  split_text (join LF cues) (py "newlines") = cues.
Proof.
  intros Ht Hl Hb. rewrite split_text_newlines.
  destruct cues as [|p rest]; [reflexivity|].
  rewrite cleaned_text_fixed.
  - rewrite splitlines_join; [now apply stripped_nonempty_fixed|].
    rewrite Forall_forall in *. intros c Hc. split; [|now apply Hl].
    apply trimmed_nonempty. now apply Ht.
  - apply join_trimmed; [discriminate | exact Ht].
  - apply blank_collapsed_join; auto.
Qed.

End NewlineRoundTrip.

(** X7. Valid cues without tab or double space, written one per line,
    are what [split_text] reads back in mode "newlines". *)
Theorem newlines_round_trip (cues : list str) :
  forallb tidy_cue cues = true ->
  split_text (join LF cues) (py "newlines") = cues.
Proof.
  intros H. rewrite forallb_forall in H.
  apply newlines_of_join; apply Forall_forall; intros c Hc;
    specialize (H c Hc); unfold tidy_cue in H; apply andb_true_iff in H as [Hv Hb].
  - now apply valid_cue_trimmed.
  - now apply valid_cue_no_linebreak.
  - exact Hb.
Qed.

Lemma newlines_round_trip_witness :
  forallb tidy_cue [py "Hello world. How are you?"; py "Fine, thanks!"] = true
  /\ split_text (join LF [py "Hello world. How are you?"; py "Fine, thanks!"])
       (py "newlines")
     = [py "Hello world. How are you?"; py "Fine, thanks!"].
Proof.
  split; [reflexivity|]. apply newlines_round_trip. reflexivity.
Defined.

(** X8. Segmenting by lines is idempotent: the pieces of any text,
    written one per line and segmented again, are the same pieces. *)
Theorem newlines_idempotent (text : str) :
  split_text (join LF (split_text text (py "newlines"))) (py "newlines")
  = split_text text (py "newlines").
Proof.
  pose proof (newline_pieces_valid text) as Hv.
  rewrite forallb_forall in Hv.
  apply newlines_of_join.
  - apply Forall_forall. intros c Hc. apply valid_cue_trimmed. now apply Hv.
  - apply Forall_forall. intros c Hc. apply valid_cue_no_linebreak. now apply Hv.
  - apply (part_split_text (fun p => blank_collapsed false p = true)).
    + intros a b. apply blank_collapsed_prefix.
    + intros a b. apply blank_collapsed_suffix.
    + apply blank_collapsed_sub.
Qed.

Section SentenceRoundTrip.

Lemma split_sentences_go_piece (p : str) :
  forall (f : bool) (cur rest : str),
    no_boundary f p = true ->
    split_sentences_go (InPiece f) cur (p ++ rest)
    = split_sentences_go (InPiece (after_end f p)) (rev p ++ cur) rest.
Proof.
  induction p as [|c p IH]; intros f cur rest H; [reflexivity|].
  cbn [no_boundary] in H. apply andb_true_iff in H as [Hc Hp].
  apply negb_true_iff in Hc.
  assert (Hstep : split_sentences_go (InPiece f) cur ((c :: p) ++ rest)
                  = split_sentences_go (InPiece (is_sentence_end c)) (c :: cur) (p ++ rest)).
  { cbn [app split_sentences_go]. destruct f; [|reflexivity].
    cbn [andb] in Hc. now rewrite Hc. }
  rewrite Hstep, (IH _ _ _ Hp), after_end_cons. cbn [rev].
  now rewrite <- app_assoc.
Qed.

Lemma split_sentences_go_resume (c0 : char) (x : str) :
  is_space c0 = false ->
  split_sentences_go InSeparator [] (c0 :: x)
  = split_sentences_go (InPiece false) [] (c0 :: x).
Proof. intros H. cbn [split_sentences_go]. now rewrite H. Qed.

Lemma split_sentences_go_space (cur x : str) :
  split_sentences_go (InPiece true) cur (SPACE :: x)
  = rev cur :: split_sentences_go InSeparator [] x.
Proof. reflexivity. Qed.

Lemma split_sentences_join (cues : list str) :
  Forall trimmed cues ->
  Forall (fun c => no_boundary false c = true) cues ->
  Forall (fun c => ends_with_sentence_end c = true) (removelast cues) ->
  cues <> [] ->
  split_sentences (join SPACE cues) = cues.
Proof.
  unfold split_sentences.
  induction cues as [|p [|q rest] IH]; intros Ht Hn He Hne; [contradiction| |].
  - inversion Hn as [|? ? Hp _]; subst. cbn [join].
    rewrite <- (app_nil_r p) at 1. rewrite (split_sentences_go_piece p _ _ _ Hp).
    cbn [split_sentences_go]. now rewrite app_nil_r, rev_involutive.
  - inversion Ht as [|? ? Htp Htrest]; subst.
    inversion Hn as [|? ? Hp Hnrest]; subst.
    rewrite removelast_cons in He by discriminate.
    inversion He as [|? ? Hep Herest]; subst.
    rewrite join_cons_cons, (split_sentences_go_piece p _ _ _ Hp).
    unfold ends_with_sentence_end in Hep. rewrite Hep, split_sentences_go_space.
    rewrite app_nil_r, rev_involutive. f_equal.
    destruct (join_trimmed SPACE (q :: rest) ltac:(discriminate) Htrest)
      as [(c0 & r0 & E & H0) _].
    rewrite E, (split_sentences_go_resume c0 r0 H0), <- E.
    apply IH; [exact Htrest | exact Hnrest | exact Herest | discriminate].
Qed.

(** Segmenting, by sentences, the space-join of trimmed cues with
    collapsed blanks that have no sentence boundary inside and, but for
    the last, end with a sentence end, gives the cues back. *)
Lemma sentences_of_join (cues : list str) :
  Forall trimmed cues ->
  Forall (fun c => blank_collapsed false c = true) cues ->
  Forall (fun c => no_boundary false c = true) cues ->
  Forall (fun c => ends_with_sentence_end c = true) (removelast cues) ->
  split_text (join SPACE cues) (py "sentences") = cues.
Proof.
  intros Ht Hb Hn He. rewrite split_text_sentences.
  destruct cues as [|p rest]; [reflexivity|].
  rewrite cleaned_text_fixed.
  - rewrite split_sentences_join by (auto; discriminate).
    now apply stripped_nonempty_fixed.
  - apply join_trimmed; [discriminate | exact Ht].
  - apply blank_collapsed_join; auto.
Qed.

End SentenceRoundTrip.

(** X9. Trimmed pieces without tab or double space that hold no
    sentence end followed by whitespace and, but for the last, end with
    a sentence end, written with one space between them, are what
    [split_text] reads back in mode "sentences". *)
Theorem sentences_round_trip (cues : list str) :
  forallb tidy_sentence cues = true ->
  forallb ends_with_sentence_end (removelast cues) = true ->
  split_text (join SPACE cues) (py "sentences") = cues.
Proof.
  intros H He. rewrite forallb_forall in H, He.
  apply sentences_of_join; apply Forall_forall; intros c Hc;
    try (specialize (H c Hc); unfold tidy_sentence in H;
         apply andb_true_iff in H as [H Hn]; apply andb_true_iff in H as [Ht Hb]).
  - now apply is_trimmed_nonempty_spec.
  - exact Hb.
  - exact Hn.
  - now apply He.
Qed.

Lemma sentences_round_trip_witness :
  forallb tidy_sentence [py "Hello world."; py "How are you?"; py "Fine"] = true
  /\ forallb ends_with_sentence_end
       (removelast [py "Hello world."; py "How are you?"; py "Fine"]) = true
  /\ split_text (join SPACE [py "Hello world."; py "How are you?"; py "Fine"])
       (py "sentences")
     = [py "Hello world."; py "How are you?"; py "Fine"].
Proof.
  split; [reflexivity|]. split; [reflexivity|].
  apply sentences_round_trip; reflexivity.
Defined.

(** X10. Segmenting by sentences is idempotent: the pieces of any
    text, joined by one space and segmented again, are the same
    pieces. *)
Theorem sentences_idempotent (text : str) :
  split_text (join SPACE (split_text text (py "sentences"))) (py "sentences")
  = split_text text (py "sentences").
Proof.
  pose proof (split_sentences_go_spec (cleaned_text text) (InPiece false) []
                eq_refl eq_refl) as [Hn He].
  apply sentences_of_join.
  - rewrite split_text_sentences. apply Forall_forall. intros c Hc.
    apply is_trimmed_nonempty_spec.
    pose proof (stripped_nonempty_trimmed (split_sentences (cleaned_text text))) as H.
    rewrite forallb_forall in H. now apply H.
  - apply (part_split_text (fun p => blank_collapsed false p = true)).
    + intros a b. apply blank_collapsed_prefix.
    + intros a b. apply blank_collapsed_suffix.
    + apply blank_collapsed_sub.
  - rewrite split_text_sentences.
    apply (part_stripped_nonempty (fun p => no_boundary false p = true)).
    + intros a b. apply no_boundary_prefix.
    + intros a b. apply no_boundary_suffix.
    + exact Hn.
  - rewrite split_text_sentences. now apply stripped_nonempty_all_but_last.
Qed.

(** ** The outcome of the renderer on every input *)

Section RendererOutcome.

Lemma forallb_false_existsb (A : Type) (f : A -> bool) (l : list A) :
  forallb f l = false -> existsb (fun x => negb (f x)) l = true.
Proof.
  induction l as [|x l IH]; [discriminate|]. cbn [forallb existsb].
  destruct (f x); cbn [negb andb orb]; [exact IH | reflexivity].
Qed.

Lemma existsb_ext_in (A : Type) (f g : A -> bool) (l : list A) :
  (forall x, f x = g x) -> existsb f l = existsb g l.
Proof. intros H. induction l as [|x l IH]; [reflexivity|]. cbn. now rewrite H, IH. Qed.

End RendererOutcome.

(** X11. What [generate_srt] does on every input. When
    [duration_sec * 1000] is NaN it raises ValueError and when it is
    infinite OverflowError. Otherwise the effective duration exists, and
    the call returns a document when every cue ends below the
    [timedelta] limit and raises OverflowError when one does not. *)
Theorem generate_srt_outcome (chunks : list str) (d : float) (gap_ms start_ms : Z) :
  match float_mul d thousand with
  | S754_nan => generate_srt chunks d gap_ms start_ms = Raise ValueError
  | S754_infinity _ => generate_srt chunks d gap_ms start_ms = Raise OverflowError
  | _ =>
      exists dur_ms,
        effective_duration d = Ok dur_ms
        /\ if forallb (fun iv => snd iv <? TIMEDELTA_LIMIT_MS)
                (cue_intervals (List.length chunks) dur_ms
                   (Z.max 0 gap_ms) (Z.max 0 start_ms))
           then exists out, generate_srt chunks d gap_ms start_ms = Ok out
           else generate_srt chunks d gap_ms start_ms = Raise OverflowError
  end.
Proof.
  pose proof (effective_duration_cases d) as C.
  assert (Hfin : forall dur_ms,
            effective_duration d = Ok dur_ms -> 500 <= dur_ms ->
            if forallb (fun iv => snd iv <? TIMEDELTA_LIMIT_MS)
                 (cue_intervals (List.length chunks) dur_ms
                    (Z.max 0 gap_ms) (Z.max 0 start_ms))
            then exists out, generate_srt chunks d gap_ms start_ms = Ok out
            else generate_srt chunks d gap_ms start_ms = Raise OverflowError).
  { intros dur_ms Hd Hmin.
    destruct (forallb _ _) eqn:Hr.
    - destruct (interval_lines_total
                  (cue_intervals (List.length chunks) dur_ms
                     (Z.max 0 gap_ms) (Z.max 0 start_ms))) as [lines Hl].
      { apply cue_intervals_in_range; try lia. exact Hr. }
      rewrite generate_srt_eq, Hd. cbn [bind]. unfold srt_document.
      rewrite Hl. cbn [bind]. eauto.
    - apply (generate_srt_overflow chunks d gap_ms start_ms dur_ms Hd).
      apply forallb_false_existsb in Hr. rewrite <- Hr.
      apply existsb_ext_in. intros iv.
      destruct (Z.leb_spec TIMEDELTA_LIMIT_MS (snd iv));
        destruct (Z.ltb_spec (snd iv) TIMEDELTA_LIMIT_MS); try reflexivity; lia. }
  destruct (float_mul d thousand).
  - destruct C as (dur & Hd & Hmin). exists dur. split; [exact Hd | now apply Hfin].
  - rewrite generate_srt_eq, C. reflexivity.
  - rewrite generate_srt_eq, C. reflexivity.
  - destruct C as (dur & Hd & Hmin). exists dur. split; [exact Hd | now apply Hfin].
Qed.

(** X12. [to_timestamp] on a count that is not negative. Below [10^9]
    days it returns: the last field is [ms mod 1000] and the hours,
    minutes and seconds are those of [ms / 1000] whole seconds or of one
    second more. From [10^9] days on it raises OverflowError. *)
Theorem to_timestamp_outcome (ms : Z) :
  0 <= ms ->
  if ms <? TIMEDELTA_LIMIT_MS
  then exists total_seconds,
         (total_seconds = ms / 1000 \/ total_seconds = ms / 1000 + 1)
         /\ to_timestamp ms =
            Ok (zfill 2 (str_of_int (total_seconds / 3600)) ++ COLON
                ++ zfill 2 (str_of_int (total_seconds mod 3600 / 60)) ++ COLON
                ++ zfill 2 (str_of_int (total_seconds mod 60)) ++ COMMA
                ++ zfill 3 (str_of_int (ms mod 1000)))
  else to_timestamp ms = Raise OverflowError.
Proof.
  intros Hms. destruct (Z.ltb_spec ms TIMEDELTA_LIMIT_MS) as [Hlt | Hge].
  - destruct (whole_seconds_in_range ms (conj Hms Hlt)) as (ts & E & Hts).
    exists ts. split; [lia|].
    assert (H0 : 0 <= ms / 1000) by (apply Z.div_pos; lia).
    rewrite to_timestamp_eq, E. cbn [bind].
    rewrite !format_zero_nonneg; [reflexivity | | | |].
    + apply Z.mod_pos_bound; lia.
    + apply Z.mod_pos_bound; lia.
    + apply Z.div_pos; [apply Z.mod_pos_bound|]; lia.
    + apply Z.div_pos; lia.
  - now apply to_timestamp_overflow.
Qed.

Lemma to_timestamp_outcome_witness :
  0 <= 3725007
  /\ (3725007 <? TIMEDELTA_LIMIT_MS) = true
  /\ exists total_seconds,
       (total_seconds = 3725007 / 1000 \/ total_seconds = 3725007 / 1000 + 1)
       /\ to_timestamp 3725007 =
          Ok (zfill 2 (str_of_int (total_seconds / 3600)) ++ COLON
              ++ zfill 2 (str_of_int (total_seconds mod 3600 / 60)) ++ COLON
              ++ zfill 2 (str_of_int (total_seconds mod 60)) ++ COMMA
              ++ zfill 3 (str_of_int (3725007 mod 1000))).
Proof.
  split; [discriminate|]. split; [reflexivity|].
  exact (to_timestamp_outcome 3725007 ltac:(discriminate)).
Defined.

Section DocumentShape.

Lemma strip_then_lf (x : str) : strip (strip x ++ [LF]) = strip x.
Proof.
  destruct (strip_trimmed_cases x) as [E | Ht]; [now rewrite E|].
  pose proof Ht as [(c0 & r0 & E0 & H0) _].
  unfold strip at 1. rewrite E0. rewrite <- app_comm_cons.
  rewrite (lstrip_fixed c0 _ H0). rewrite app_comm_cons, <- E0.
  rewrite rstrip_snoc_space by reflexivity.
  destruct Ht as [_ (q & a & Ea & Ha)]. rewrite Ea. now apply rstrip_snoc.
Qed.

End DocumentShape.

(** X13. A document [generate_srt] returns ends with one LF and has no
    other whitespace at either end; it is the single LF exactly when
    there is no cue. *)
Theorem document_shape (chunks : list str) (d : float) (gap_ms start_ms : Z)
    (out : str) :
  generate_srt chunks d gap_ms start_ms = Ok out ->
  out = strip out ++ [LF] /\ (out = [LF] <-> chunks = []).
Proof.
  intros H. rewrite generate_srt_eq in H.
  destruct (effective_duration d) as [dur|]; [|discriminate]. cbn [bind] in H.
  unfold srt_document in H.
  destruct (interval_lines _) as [lines|] eqn:El; [|discriminate]. cbn [bind] in H.
  injection H as <-. split.
  - now rewrite strip_then_lf.
  - destruct (interval_lines_spec _ _ El) as (Hlen & _).
    rewrite cue_intervals_length in Hlen.
    split.
    + intros E. destruct chunks as [|text rest]; [reflexivity|]. exfalso.
      destruct lines as [|line lines']; [discriminate|].
      destruct (joined_blocks_head (line :: lines') (text :: rest) 1)
        as (c0 & r0 & E1 & H0); [discriminate | discriminate |].
      rewrite E1 in E. destruct (strip_cases (c0 :: r0)) as [E0 | (c & r & Ec & Hc)].
      * unfold strip in E0. rewrite (lstrip_fixed c0 r0 H0) in E0.
        destruct (rstrip_keeps_head c0 r0 H0) as [r' Hr]. congruence.
      * rewrite Ec in E. cbn [app] in E. injection E as -> _. discriminate.
    + intros ->. destruct lines; [reflexivity | discriminate].
Qed.

Lemma document_shape_witness :
  generate_srt [py "Hi there"] two_and_a_half 200 0
  = Ok (join LF [py "1"; py "00:00:00,000 --> 00:00:02,500"; py "Hi there"; []])
  /\ join LF [py "1"; py "00:00:00,000 --> 00:00:02,500"; py "Hi there"; []]
     = strip (join LF [py "1"; py "00:00:00,000 --> 00:00:02,500"; py "Hi there"; []])
       ++ [LF].
Proof.
  split; [reflexivity|].
  exact (proj1 (document_shape [py "Hi there"] two_and_a_half 200 0 _ eq_refl)).
Defined.

(** ** From text to document and back *)

Section Pipeline.

Lemma cue_text_numbered_blocks (lines : list str) :
  forall (i0 : Z) (chunks : list str),
    List.length lines = List.length chunks ->
    map cue_text (numbered_blocks i0 lines chunks) = chunks.
Proof.
  induction lines as [|line lines IH]; intros i0 [|text rest] H;
    try discriminate; [reflexivity|].
  cbn [numbered_blocks map]. unfold cue_text at 1. cbn [nth].
  f_equal. apply IH. cbn [List.length] in H. lia.
Qed.

Lemma generate_srt_ok (chunks : list str) (d : float) (gap_ms start_ms : Z)
    (out : str) :
  generate_srt chunks d gap_ms start_ms = Ok out ->
  exists dur_ms lines,
    effective_duration d = Ok dur_ms
    /\ interval_lines (cue_intervals (List.length chunks) dur_ms
                         (Z.max 0 gap_ms) (Z.max 0 start_ms)) = Ok lines
    /\ out = strip (join LF (block_lines (numbered_blocks 1 lines chunks))) ++ [LF].
Proof.
  intros H. rewrite generate_srt_eq in H.
  destruct (effective_duration d) as [dur|]; [|discriminate]. cbn [bind] in H.
  unfold srt_document in H.
  destruct (interval_lines _) as [lines|] eqn:El; [|discriminate]. cbn [bind] in H.
  injection H as <-. exists dur, lines. repeat split. exact El.
Qed.

Lemma cue_intervals_closed (dur gap : Z) (n : nat) :
  forall (i : nat) (curr : Z),
    (i < n)%nat ->
    nth_error (cue_intervals n dur gap curr) i
    = Some (curr + Z.of_nat i * (dur + gap),
            curr + Z.of_nat i * (dur + gap) + dur).
Proof.
  induction n as [|n IH]; intros i curr Hi; [lia|].
  destruct i as [|i]; cbn [cue_intervals nth_error].
  - do 2 f_equal; lia.
  - rewrite IH by lia. do 2 f_equal; lia.
Qed.

End Pipeline.

(** X14. The two functions composed, as [generate] calls them. In mode
    "newlines", and in any mode for a text on one line, the cue texts of
    the blocks of the returned document are the pieces of
    [split_text]. *)
Theorem pipeline_round_trip (text mode : str) (d : float) (gap_ms start_ms : Z)
    (out : str) :
  mode = py "newlines" \/ no_linebreak text = true ->
  generate_srt (split_text text mode) d gap_ms start_ms = Ok out ->
  map cue_text (split_on_blank_lines out) = split_text text mode.
Proof.
  intros Hm H.
  assert (Hv : forallb valid_cue (split_text text mode) = true).
  { destruct Hm as [-> | Hm];
      [apply newline_pieces_valid | now apply single_line_pieces_valid]. }
  destruct (generate_srt_ok _ _ _ _ _ H) as (dur & lines & _ & El & ->).
  destruct (interval_lines_spec _ _ El) as (Hlen & Hnl & Hne & _).
  rewrite cue_intervals_length in Hlen.
  rewrite reparse_document by assumption.
  now apply cue_text_numbered_blocks.
Qed.

Lemma pipeline_round_trip_witness :
  split_text (py "One. Two!") (py "auto") = [py "One."; py "Two!"]
  /\ map cue_text
       (split_on_blank_lines
          (join LF [py "1"; py "00:00:00,000 --> 00:00:02,500"; py "One."; [];
                    py "2"; py "00:00:02,700 --> 00:00:05,200"; py "Two!"; []]))
     = split_text (py "One. Two!") (py "auto").
Proof.
  split; [reflexivity|].
  apply (pipeline_round_trip (py "One. Two!") (py "auto") two_and_a_half 200 0).
  - right. reflexivity.
  - reflexivity.
Defined.

(** X15. When the cues show. In the document of valid cues the block
    of cue [i], counted from 0, is numbered [i + 1], and its timestamp
    line runs from [max(0, start_ms) + i * (dur_ms + max(0, gap_ms))] to
    [dur_ms] later, [dur_ms] being the effective duration. *)
Theorem cue_timing (chunks : list str) (d : float) (gap_ms start_ms dur_ms : Z)
    (out : str) (i : nat) (text : str) :
  forallb valid_cue chunks = true ->
  effective_duration d = Ok dur_ms ->
  generate_srt chunks d gap_ms start_ms = Ok out ->
  nth_error chunks i = Some text ->
  exists ts_start ts_end,
    to_timestamp (Z.max 0 start_ms + Z.of_nat i * (dur_ms + Z.max 0 gap_ms))
    = Ok ts_start
    /\ to_timestamp (Z.max 0 start_ms + Z.of_nat i * (dur_ms + Z.max 0 gap_ms) + dur_ms)
       = Ok ts_end
    /\ nth_error (split_on_blank_lines out) i
       = Some [str_of_int (Z.of_nat i + 1); ts_start ++ ARROW ++ ts_end; text].
Proof.
  intros Hv Hd H Hi.
  destruct (generate_srt_ok _ _ _ _ _ H) as (dur & lines & Hd' & El & ->).
  rewrite Hd in Hd'. injection Hd' as <-.
  destruct (interval_lines_spec _ _ El) as (Hlen & Hnl & Hne & Hnth).
  rewrite cue_intervals_length in Hlen.
  assert (Hlt : (i < List.length chunks)%nat).
  { apply nth_error_Some. congruence. }
  destruct (Hnth i _ (cue_intervals_closed dur_ms (Z.max 0 gap_ms) _ i _ Hlt))
    as (l & Hl & Eline).
  unfold interval_line in Eline. cbn [fst snd] in Eline.
  destruct (to_timestamp (_ + _ * _)) as [a|]; [|discriminate]. cbn [bind] in Eline.
  destruct (to_timestamp (_ + _ * _ + _)) as [b|]; [|discriminate]. cbn [bind] in Eline.
  injection Eline as <-. exists a, b. split; [reflexivity|]. split; [reflexivity|].
  rewrite reparse_document by assumption.
  rewrite (numbered_blocks_nth lines 1 chunks i _ text Hl Hi).
  do 3 f_equal. lia.
Qed.

Lemma cue_timing_witness :
  nth_error (split_on_blank_lines
               (join LF [py "1"; py "00:00:01,000 --> 00:00:03,500"; py "One."; [];
                         py "2"; py "00:00:03,700 --> 00:00:06,200"; py "Two!"; []])) 1
  = Some [py "2"; py "00:00:03,700 --> 00:00:06,200"; py "Two!"]
  /\ exists ts_start ts_end,
    to_timestamp (Z.max 0 1000 + Z.of_nat 1 * (2500 + Z.max 0 200)) = Ok ts_start
    /\ to_timestamp (Z.max 0 1000 + Z.of_nat 1 * (2500 + Z.max 0 200) + 2500) = Ok ts_end
    /\ nth_error (split_on_blank_lines
               (join LF [py "1"; py "00:00:01,000 --> 00:00:03,500"; py "One."; [];
                         py "2"; py "00:00:03,700 --> 00:00:06,200"; py "Two!"; []])) 1
       = Some [str_of_int (Z.of_nat 1 + 1); ts_start ++ ARROW ++ ts_end; py "Two!"].
Proof.
  split; [reflexivity|].
  apply (cue_timing [py "One."; py "Two!"] two_and_a_half 200 1000 2500).
  - reflexivity.
  - reflexivity.
  - reflexivity.
  - reflexivity.
Defined.

(** ** The shape of a timestamp *)

Section FixedWidth.

Lemma zfill_two (z : Z) :
  0 <= z < 100 -> zfill 2 (str_of_int z) = two_digits z.
Proof.
  intros H.
  assert (A : forallb (fun k => str_eqb (zfill 2 (str_of_int (Z.of_nat k)))
                                  (two_digits (Z.of_nat k))) (seq 0 100) = true)
    by (vm_compute; reflexivity).
  rewrite forallb_forall in A. specialize (A (Z.to_nat z)).
  rewrite Z2Nat.id in A by lia. apply str_eqb_eq, A, in_seq. lia.
Qed.

Lemma zfill_three (z : Z) :
  0 <= z < 1000 -> zfill 3 (str_of_int z) = three_digits z.
Proof.
  intros H.
  assert (A : forallb (fun k => str_eqb (zfill 3 (str_of_int (Z.of_nat k)))
                                  (three_digits (Z.of_nat k))) (seq 0 1000) = true)
    by (vm_compute; reflexivity).
  rewrite forallb_forall in A. specialize (A (Z.to_nat z)).
  rewrite Z2Nat.id in A by lia. apply str_eqb_eq, A, in_seq. lia.
Qed.

End FixedWidth.

(** X16. Below 100 hours a timestamp has a fixed shape, twelve
    characters [HH:MM:SS,mmm]: two digits each for the hours, minutes
    and seconds of [ms / 1000] and three for [ms mod 1000]. *)
Theorem to_timestamp_fixed_width (ms : Z) :
  0 <= ms < 360000000 ->
  to_timestamp ms =
  Ok (two_digits (ms / 1000 / 3600) ++ COLON
      ++ two_digits (ms / 1000 mod 3600 / 60) ++ COLON
      ++ two_digits (ms / 1000 mod 60) ++ COMMA
      ++ three_digits (ms mod 1000)).
Proof.
  intros H.
  rewrite to_timestamp_eq, whole_seconds_exact
    by (unfold EXACT_LIMIT_MS; change (2 ^ 44) with 17592186044416; lia).
  cbn [bind].
  assert (H0 : 0 <= ms / 1000 < 360000) by (Z.div_mod_to_equations; lia).
  rewrite !format_zero_nonneg by (Z.div_mod_to_equations; lia).
  rewrite !zfill_two, zfill_three by (Z.div_mod_to_equations; lia).
  reflexivity.
Qed.

Lemma to_timestamp_fixed_width_witness :
  0 <= 3725007 < 360000000
  /\ to_timestamp 3725007 = Ok (py "01:02:05,007")
  /\ to_timestamp 3725007 =
     Ok (two_digits (3725007 / 1000 / 3600) ++ COLON
         ++ two_digits (3725007 / 1000 mod 3600 / 60) ++ COLON
         ++ two_digits (3725007 / 1000 mod 60) ++ COMMA
         ++ three_digits (3725007 mod 1000)).
Proof.
  split; [lia|]. split; [reflexivity|].
  apply to_timestamp_fixed_width. lia.
Defined.

(** ** The intervals a document shows *)

Section Reading.

Lemma read_digits_zeros (k : nat) (s : str) :
  read_digits 0 (repeat ZERO k ++ s) = read_digits 0 s.
Proof. induction k as [|k IH]; [reflexivity | exact IH]. Qed.

Lemma read_digits_uint_acc (u : Decimal.uint) :
  forall acc : positive,
    read_digits (Zpos acc) (str_of_uint u) = Some (Zpos (Pos.of_uint_acc u acc)).
Proof.
  induction u as [|u IH|u IH|u IH|u IH|u IH|u IH|u IH|u IH|u IH|u IH];
    intros acc; [reflexivity|..];
    cbn [str_of_uint read_digits Pos.of_uint_acc];
    change (is_digit _) with true; cbv iota; rewrite <- IH; f_equal; lia.
Qed.

Lemma read_digits_uint (u : Decimal.uint) :
  read_digits 0 (str_of_uint u) = Some (Z.of_N (Pos.of_uint u)).
Proof.
  induction u as [|u IH|u IH|u IH|u IH|u IH|u IH|u IH|u IH|u IH|u IH];
    [reflexivity | exact IH |..];
    cbn [str_of_uint read_digits Pos.of_uint];
    change (is_digit _) with true; cbv iota;
    cbn [Z.of_N]; rewrite <- read_digits_uint_acc; f_equal.
Qed.

Lemma read_digits_int (z : Z) :
  0 <= z -> read_digits 0 (str_of_int z) = Some z.
Proof.
  intros H. destruct z as [|p|p]; [reflexivity | | lia].
  unfold str_of_int. cbn [Z.to_int]. rewrite read_digits_uint.
  now rewrite DecimalPos.Unsigned.of_to.
Qed.

Lemma str_of_int_nonempty (z : Z) : str_of_int z <> [].
Proof. destruct (str_of_int_head z) as (c & r & E & _). rewrite E. discriminate. Qed.

Lemma read_number_zfill (width : nat) (z : Z) :
  0 <= z -> read_number (zfill width (str_of_int z)) = Some z.
Proof.
  intros H. unfold zfill, read_number.
  destruct (repeat ZERO _ ++ str_of_int z) eqn:E.
  - apply app_eq_nil in E as [_ E]. now apply str_of_int_nonempty in E.
  - rewrite <- E, read_digits_zeros. now apply read_digits_int.
Qed.

End Reading.

Section Fields.

Lemma without_app (sep : char) (a b : str) :
  without sep (a ++ b) = without sep a && without sep b.
Proof. apply forallb_app. Qed.

Lemma without_digits (sep : char) (s : str) :
  is_digit sep = false -> forallb is_digit s = true -> without sep s = true.
Proof.
  intros Hsep H. unfold without. rewrite forallb_forall in *. intros c Hc.
  specialize (H c Hc). apply negb_true_iff, N.eqb_neq. intros ->. congruence.
Qed.

Lemma digits_uint (u : Decimal.uint) : forallb is_digit (str_of_uint u) = true.
Proof. induction u; simpl; auto. Qed.

Lemma digits_zfill (width : nat) (z : Z) :
  0 <= z -> forallb is_digit (zfill width (str_of_int z)) = true.
Proof.
  intros H. unfold zfill. rewrite forallb_app. apply andb_true_iff. split.
  - induction (width - _)%nat; simpl; auto.
  - unfold str_of_int. destruct z as [|p|p]; [reflexivity | | lia].
    cbn [Z.to_int]. apply digits_uint.
Qed.

(** Splitting runs over a piece that does not hold the separator. *)
Lemma split_go_without (sep : char) (p : str) :
  without sep p = true ->
  forall cur rest,
    split_go sep cur (p ++ rest) = split_go sep (rev p ++ cur) rest.
Proof.
  induction p as [|c p IH]; intros H cur rest; [reflexivity|].
  cbn [without forallb] in H. apply andb_true_iff in H as [Hc Hp].
  apply negb_true_iff in Hc. cbn [app split_go]. rewrite Hc.
  rewrite (IH Hp). cbn [rev]. now rewrite <- app_assoc.
Qed.

Lemma split_first (sep : char) (p rest : str) :
  without sep p = true -> split sep (p ++ sep :: rest) = p :: split sep rest.
Proof.
  intros H. unfold split. rewrite (split_go_without sep p H).
  cbn [split_go]. rewrite N.eqb_refl. now rewrite app_nil_r, rev_involutive.
Qed.

Lemma split_last (sep : char) (p : str) :
  without sep p = true -> split sep p = [p].
Proof.
  intros H. unfold split. rewrite <- (app_nil_r p) at 1.
  rewrite (split_go_without sep p H). cbn [split_go].
  now rewrite app_nil_r, rev_involutive.
Qed.

Lemma colon_cons (x : str) : COLON ++ x = 0x3A%N :: x.
Proof. reflexivity. Qed.

Lemma comma_cons (x : str) : COMMA ++ x = 0x2C%N :: x.
Proof. reflexivity. Qed.

(** The four fields of a timestamp, read back. *)
Lemma read_timestamp_fields (h m s f : Z) :
  0 <= h -> 0 <= m < 60 -> 0 <= s < 60 -> 0 <= f < 1000 ->
  read_timestamp
    (zfill 2 (str_of_int h) ++ COLON ++ zfill 2 (str_of_int m) ++ COLON
     ++ zfill 2 (str_of_int s) ++ COMMA ++ zfill 3 (str_of_int f))
  = Some (((h * 60 + m) * 60 + s) * 1000 + f).
Proof.
  intros Hh Hm Hs Hf. unfold read_timestamp.
  pose proof (digits_zfill 2 h Hh) as Dh.
  pose proof (digits_zfill 2 m (proj1 Hm)) as Dm.
  pose proof (digits_zfill 2 s (proj1 Hs)) as Ds.
  pose proof (digits_zfill 3 f (proj1 Hf)) as Df.
  rewrite !colon_cons, comma_cons.
  rewrite split_first by (now apply without_digits).
  rewrite split_first by (now apply without_digits).
  rewrite split_last.
  2:{ rewrite without_app. apply andb_true_iff. split; [now apply without_digits|].
      cbn [without forallb]. apply (without_digits 0x3A%N _ eq_refl Df). }
  rewrite split_first by (now apply without_digits).
  rewrite split_last by (now apply without_digits).
  rewrite !read_number_zfill by lia.
  destruct (Z.ltb_spec m 60); [|lia]. destruct (Z.ltb_spec s 60); [|lia].
  destruct (Z.ltb_spec f 1000); [|lia]. reflexivity.
Qed.

Lemma without_space_timestamp (h m s f : Z) :
  0 <= h -> 0 <= m -> 0 <= s -> 0 <= f ->
  without SPACE
    (zfill 2 (str_of_int h) ++ COLON ++ zfill 2 (str_of_int m) ++ COLON
     ++ zfill 2 (str_of_int s) ++ COMMA ++ zfill 3 (str_of_int f)) = true.
Proof.
  intros Hh Hm Hs Hf. rewrite !without_app.
  rewrite !(without_digits SPACE _ eq_refl (digits_zfill _ _ Hh)).
  rewrite !(without_digits SPACE _ eq_refl (digits_zfill _ _ Hm)).
  rewrite !(without_digits SPACE _ eq_refl (digits_zfill _ _ Hs)).
  rewrite !(without_digits SPACE _ eq_refl (digits_zfill _ _ Hf)).
  reflexivity.
Qed.

(** Below the first inexact count a timestamp reads back as the count it
    was made from. *)
Lemma read_to_timestamp (ms : Z) :
  0 <= ms < EXACT_LIMIT_MS ->
  exists ts,
    to_timestamp ms = Ok ts /\ read_timestamp ts = Some ms
    /\ without SPACE ts = true.
Proof.
  intros H. rewrite to_timestamp_eq, (whole_seconds_exact ms H). cbn [bind].
  assert (H0 : 0 <= ms / 1000) by (apply Z.div_pos; lia).
  assert (Hm : 0 <= ms / 1000 mod 3600 / 60 < 60)
    by (generalize (ms / 1000); intros; Z.div_mod_to_equations; lia).
  assert (Hs : 0 <= ms / 1000 mod 60 < 60) by (apply Z.mod_pos_bound; lia).
  assert (Hf : 0 <= ms mod 1000 < 1000) by (apply Z.mod_pos_bound; lia).
  assert (Hh : 0 <= ms / 1000 / 3600) by (apply Z.div_pos; lia).
  rewrite !format_zero_nonneg by lia.
  eexists. split; [reflexivity|]. split.
  - rewrite read_timestamp_fields by lia. f_equal.
    Z.div_mod_to_equations. lia.
  - apply without_space_timestamp; lia.
Qed.

Lemma read_interval_arrow (a b : str) :
  without SPACE a = true -> without SPACE b = true ->
  read_interval (a ++ ARROW ++ b)
  = match read_timestamp a, read_timestamp b with
    | Some s, Some e => Some (s, e)
    | _, _ => None
    end.
Proof.
  intros Ha Hb. unfold read_interval.
  change (ARROW ++ b) with (SPACE :: py "-->" ++ SPACE :: b).
  rewrite (split_first SPACE a _ Ha).
  rewrite (split_first SPACE (py "-->") b eq_refl).
  rewrite (split_last SPACE b Hb). reflexivity.
Qed.

(** The timestamp line of an interval reads back as the interval. *)
Lemma read_interval_line (iv : Z * Z) :
  0 <= fst iv <= snd iv -> snd iv < EXACT_LIMIT_MS ->
  exists line, interval_line iv = Ok line /\ read_interval line = Some iv.
Proof.
  intros H1 H2. unfold interval_line.
  destruct (read_to_timestamp (fst iv)) as (a & Ea & Ra & Wa); [lia|].
  destruct (read_to_timestamp (snd iv)) as (b & Eb & Rb & Wb); [lia|].
  rewrite Ea, Eb. cbn [bind]. eexists. split; [reflexivity|].
  rewrite (read_interval_arrow a b Wa Wb), Ra, Rb. now destruct iv.
Qed.

Lemma read_interval_lines (ivs : list (Z * Z)) :
  Forall (fun iv => 0 <= fst iv <= snd iv /\ snd iv < EXACT_LIMIT_MS) ivs ->
  exists lines,
    interval_lines ivs = Ok lines /\ map read_interval lines = map Some ivs.
Proof.
  induction 1 as [|iv ivs [H1 H2] _ (lines & El & Rl)]; cbn [interval_lines].
  - exists []. split; reflexivity.
  - destruct (read_interval_line iv H1 H2) as (line & E & R).
    rewrite E, El. cbn [bind]. exists (line :: lines). split; [reflexivity|].
    cbn [map]. now rewrite R, Rl.
Qed.

(** Intervals that all end below a limit, from a cursor that is not
    negative on. *)
Lemma cue_intervals_below (limit dur gap : Z) (n : nat) :
  0 <= dur -> 0 <= gap ->
  forall curr,
    0 <= curr ->
    forallb (fun iv => snd iv <? limit) (cue_intervals n dur gap curr) = true ->
    Forall (fun iv => 0 <= fst iv <= snd iv /\ snd iv < limit)
      (cue_intervals n dur gap curr).
Proof.
  intros Hd Hg. induction n as [|n IH]; intros curr Hc H; cbn [cue_intervals] in *.
  - constructor.
  - cbn [forallb snd] in H. apply andb_true_iff in H as [H1 H2].
    apply Z.ltb_lt in H1. constructor.
    + cbn [fst snd]. lia.
    + apply IH; [lia | exact H2].
Qed.

End Fields.

Section WellFormed.

(** Blocks whose timestamp lines read as the intervals of the cues, in
    order from the cursor on, are well formed. *)
Lemma well_formed_numbered_blocks (dur gap : Z) (chunks : list str) :
  0 < dur -> 0 <= gap ->
  forall (lines : list str) (i cursor curr : Z),
    cursor <= curr ->
    forallb valid_cue chunks = true ->
    map read_interval lines
    = map Some (cue_intervals (List.length chunks) dur gap curr) ->
    well_formed_blocks i cursor (numbered_blocks i lines chunks) = true.
Proof.
  intros Hd Hg. induction chunks as [|text rest IH];
    intros lines i cursor curr Hc Hv Hl.
  - destruct lines; reflexivity.
  - destruct lines as [|line lines]; [discriminate|].
    cbn [List.length cue_intervals map] in Hl. injection Hl as Hline Hrest.
    cbn [forallb] in Hv. apply andb_true_iff in Hv as [Ht Hv].
    cbn [numbered_blocks well_formed_blocks].
    rewrite (proj2 (str_eqb_eq _ _) eq_refl), Ht, Hline. cbn [andb].
    destruct (Z.leb_spec cursor curr); [|lia].
    destruct (Z.ltb_spec curr (curr + dur)); [|lia]. cbn [andb].
    apply (IH lines (i + 1) (curr + dur) (curr + dur + gap)); [lia | exact Hv | exact Hrest].
Qed.

Lemma block_interval_numbered_blocks (lines : list str) :
  forall (i : Z) (chunks : list str),
    List.length lines = List.length chunks ->
    map block_interval (numbered_blocks i lines chunks) = map read_interval lines.
Proof.
  induction lines as [|line lines IH]; intros i [|text rest] H;
    try discriminate; [reflexivity|].
  cbn [numbered_blocks map]. unfold block_interval at 1. cbn [nth].
  f_equal. apply IH. cbn [List.length] in H. lia.
Qed.

End WellFormed.






